(** * zeekpkg.package: package identity, metadata and version matching

    A shallow embedding of [zeekpkg/package.py] and the properties of its
    functions.  A Python [str] is a [string] whose characters are code points
    below 256; a Python [int] is a [Z]; an optional value ([str | None]) is an
    [option]; an operation that can raise returns a [result]. *)

From Stdlib Require Import ZArith Ascii String.
From stdpp Require Import base option list strings gmap.

Local Open Scope Z_scope.

(** ** The Python values and operations the module relies on *)

Module Py.

(** The exceptions that can escape the functions of the module. *)
Inductive exn : Set :=
| AssertionError
| ValueError
| IndexError
| AttributeError.

(** The outcome of a call: a returned value or a raised exception. *)
Inductive result (A : Type) : Type :=
| Ok (a : A)
| Raise (e : exn).
Global Arguments Ok {A} a.
Global Arguments Raise {A} e.

Global Instance result_ret : MRet result := @Ok.
Global Instance result_bind : MBind result := fun A B f r =>
  match r with
  | Ok a => f a
  | Raise e => Raise e
  end.

Global Instance result_fmap : FMap result := fun A B f r =>
  match r with
  | Ok a => Ok (f a)
  | Raise e => Raise e
  end.

Global Instance exn_eq_dec : EqDecision exn.
Proof. solve_decision. Defined.

(** The double quote, for the messages that quote their argument. *)
Definition dquote : string := String "034"%char EmptyString.

(** Truth value of a [str] and of a [str | None]: empty and [None] are false. *)
Definition truthy (s : string) : bool :=
  match s with
  | EmptyString => false
  | String _ _ => true
  end.

Definition truthy_opt (o : option string) : bool :=
  match o with
  | Some s => truthy s
  | None => false
  end.

(** [format o]: how an f-string renders a [str | None]. *)
Definition format (o : option string) : string :=
  match o with
  | Some s => s
  | None => "None"
  end.

(** [s.startswith(p)]. *)
Definition startswith (s p : string) : bool := String.prefix p s.

(** [s[n:]]. *)
Fixpoint drop_chars (n : nat) (s : string) : string :=
  match n, s with
  | O, _ => s
  | S _, EmptyString => EmptyString
  | S n', String _ s' => drop_chars n' s'
  end.

(** [s.rstrip(c)] for a one-character set: every trailing [c] goes. *)
Fixpoint rstrip (c : ascii) (s : string) : string :=
  match s with
  | EmptyString => EmptyString
  | String a s' =>
      match rstrip c s' with
      | EmptyString => if bool_decide (a = c) then EmptyString else String a EmptyString
      | r => String a r
      end
  end.

(** [s.split(sep)] for a one-character separator: never the empty list. *)
Fixpoint split (sep : ascii) (s : string) : list string :=
  match s with
  | EmptyString => [EmptyString]
  | String a s' =>
      if bool_decide (a = sep) then EmptyString :: split sep s'
      else match split sep s' with
           | w :: ws => String a w :: ws
           | [] => [String a EmptyString]
           end
  end.

(** [str.isspace] on one code point below 256. *)
Definition isspace (a : ascii) : bool :=
  let n := N_of_ascii a in
  ((9 <=? n) && (n <=? 13) || (28 <=? n) && (n <=? 32)
   || (n =? 133) || (n =? 160))%N.

(** [s.split()]: the maximal runs of characters that are not white space. *)
Fixpoint split_ws (s : string) : list string :=
  match s with
  | EmptyString => []
  | String a s' =>
      if isspace a then split_ws s'
      else match s' with
           | EmptyString => [String a EmptyString]
           | String b _ =>
               if isspace b then String a EmptyString :: split_ws s'
               else match split_ws s' with
                    | w :: ws => String a w :: ws
                    | [] => [String a EmptyString]
                    end
           end
  end.

(** [s1 < s2] on [str]: lexicographic on the code points. *)
Fixpoint str_lt (s1 s2 : string) : bool :=
  match s1, s2 with
  | _, EmptyString => false
  | EmptyString, String _ _ => true
  | String a s1', String b s2' =>
      if (N_of_ascii a <? N_of_ascii b)%N then true
      else if bool_decide (a = b) then str_lt s1' s2'
      else false
  end.

(** [s.lstrip()]: the leading white space goes. *)
Fixpoint lstrip_ws (s : string) : string :=
  match s with
  | EmptyString => EmptyString
  | String a s' => if isspace a then lstrip_ws s' else s
  end.

(** [s.rstrip()]: the trailing white space goes. *)
Fixpoint rstrip_ws (s : string) : string :=
  match s with
  | EmptyString => EmptyString
  | String a s' =>
      match rstrip_ws s' with
      | EmptyString => if isspace a then EmptyString else String a EmptyString
      | r => String a r
      end
  end.

(** [s.strip()]. *)
Definition strip_ws (s : string) : string := rstrip_ws (lstrip_ws s).

(** [c in s] for a one-character [c]. *)
Fixpoint contains_char (c : ascii) (s : string) : bool :=
  match s with
  | EmptyString => false
  | String a s' => bool_decide (a = c) || contains_char c s'
  end.

(** The first [n] characters of [s], all of it when it is shorter. *)
Fixpoint take_chars (n : nat) (s : string) : string :=
  match n, s with
  | O, _ => EmptyString
  | S _, EmptyString => EmptyString
  | S n', String a s' => String a (take_chars n' s')
  end.

(** [s[:e]]: a negative bound counts from the end; bounds are clipped. *)
Definition slice_to (s : string) (e : Z) : string :=
  let n := Z.of_nat (String.length s) in
  let e' := if e <? 0 then Z.max 0 (e + n) else Z.min e n in
  take_chars (Z.to_nat e') s.

(** The number of white-space characters at the head of [s]. *)
Fixpoint leading_ws (s : string) : nat :=
  match s with
  | EmptyString => O
  | String a s' => if isspace a then S (leading_ws s') else O
  end.

(** [re.split(pattern, s)], the pattern given by its matcher: [match_len t]
    is the length of the match of the pattern at the head of [t], when there
    is one.  The scan goes left to right; [skip] characters of the match at
    hand are still to be passed over.  The patterns of this module never
    match the empty string, and a matcher answering [Some 0] is read as no
    match. *)
Fixpoint re_split_go (match_len : string -> option nat) (skip : nat)
    (s : string) : list string :=
  match s with
  | EmptyString => [EmptyString]
  | String a s' =>
      match skip with
      | S k => re_split_go match_len k s'
      | O =>
          match match_len s with
          | Some (S k) => EmptyString :: re_split_go match_len k s'
          | _ =>
              match re_split_go match_len O s' with
              | w :: ws => String a w :: ws
              | [] => [String a EmptyString]
              end
          end
      end
  end.

Definition re_split (match_len : string -> option nat) (s : string)
  : list string := re_split_go match_len O s.

(** The pattern [,\s*]: a comma and the white space after it. *)
Definition match_comma_ws (s : string) : option nat :=
  match s with
  | EmptyString => None
  | String a s' =>
      if bool_decide (a = ","%char) then Some (S (leading_ws s')) else None
  end.

(** The pattern [,\s*|\s+]: a comma and the white space after it, or a run
    of white space. *)
Definition match_comma_ws_or_ws (s : string) : option nat :=
  match s with
  | EmptyString => None
  | String a s' =>
      if bool_decide (a = ","%char) then Some (S (leading_ws s'))
      else if isspace a then Some (S (leading_ws s'))
      else None
  end.

Section Lists.
Context {A : Type}.

(** [len(l)]. *)
Definition len (l : list A) : Z := Z.of_nat (length l).

(** [l[i]]: a negative index counts from the end; out of range raises. *)
Definition getitem (l : list A) (i : Z) : result A :=
  let j := if i <? 0 then i + len l else i in
  if j <? 0 then Raise IndexError
  else match l !! Z.to_nat j with
       | Some x => Ok x
       | None => Raise IndexError
       end.

(** [l[::2]]. *)
Fixpoint every_other (l : list A) : list A :=
  match l with
  | [] => []
  | x :: l' => x :: match l' with
                    | [] => []
                    | _ :: l'' => every_other l''
                    end
  end.

(** [l[1::2]]. *)
Definition every_other_from_1 (l : list A) : list A := every_other (tail l).

(** [list(enumerate(l))]. *)
Fixpoint enumerate_from (i : Z) (l : list A) : list (Z * A) :=
  match l with
  | [] => []
  | x :: l' => (i, x) :: enumerate_from (i + 1) l'
  end.

Definition enumerate (l : list A) : list (Z * A) := enumerate_from 0 l.
End Lists.

End Py.
Import Py.

(** ** Collaborators outside the module *)

(** [os.path]: the two queries the module makes of the file system.
    [realpath] is taken on the paths it answers: a path with an embedded
    null character, on which [os.path.realpath] raises ValueError, is
    outside the model, and no statement below is about the return of
    [realpath] on such a path. *)
Class OsPath := {
  realpath : string -> string;
  path_exists : string -> bool
}.

Section Identity.
Context `{OsPath}.

(** [canonical_url(path)]. *)
Definition canonical_url (path : string) : string :=
  let url := rstrip "/" path in
  if startswith url "." || startswith url "/" then realpath url else url.

(** [name_from_path(path)]. *)
Definition name_from_path (path : string) : result string :=
  getitem (split "/" (canonical_url path)) (-1).
End Identity.

(** The [semantic_version] library: lenient coercion of a version string,
    parsing of a range expression, and membership of a version in a range.
    [None] stands for the [ValueError] the library raises on input it rejects. *)
Class Semver := {
  Version : Type;
  Spec : Type;
  Version_coerce : string -> option Version;
  Spec_parse : string -> option Spec;
  Spec_contains : Spec -> Version -> bool
}.

(** [zeekpkg._util]: the version-tag normalization helper. *)
Class Util := {
  normalize_version_tag : string -> string
}.

(** The interpreter's [hash] on [str]. *)
Class PyHash := {
  hash : string -> Z
}.

(** ** Module constants *)

Definition TRACKING_METHOD_VERSION : string := "version".
Definition TRACKING_METHOD_BRANCH : string := "branch".
Definition TRACKING_METHOD_COMMIT : string := "commit".
Definition TRACKING_METHOD_BUILTIN : string := "builtin".
Definition BUILTIN_SOURCE : string := "zeek-builtin".
Definition BUILTIN_SCHEME : string := "zeek-builtin://".

(** ** Metadata: the dependency field *)

(** A [for] loop over a list whose body may raise. *)
Fixpoint for_each {A S : Type} (body : S -> A -> result S) (s : S) (l : list A)
  : result S :=
  match l with
  | [] => Ok s
  | x :: l' => s' ← body s x; for_each body s' l'
  end.

(** The body of the loop of [dependencies], lines 154-155: one key of
    [enumerate(keys)] against the list of values. *)
Definition store_pair (values : list string)
    (rval : gmap string string) (ik : Z * string) : result (gmap string string) :=
  let '(i, k) := ik in
  if i <? len values
  then v ← getitem values i; Ok (<[k:=v]> rval)
  else Ok rval.

(** [dependencies(metadata_dict, field)]: the inner [option] is the returned
    [dict | None]. *)
Definition dependencies (metadata_dict : gmap string string) (field : string)
  : result (option (gmap string string)) :=
  match metadata_dict !! field with
  | None => Ok (Some ∅)
  | Some depends =>
      let parts := split_ws depends in
      let keys := every_other parts in
      let values := every_other_from_1 parts in
      if negb (bool_decide (len keys = len values)) then Ok None
      else
        rval ← for_each (store_pair values) ∅ (enumerate keys);
        Ok (Some rval)
  end.

(** ** PackageVersion: the version spec matcher *)

Module PackageVersion.
Section WithSemver.
Context `{Semver} `{Util}.

(** The object's attributes; [req_semver] is the memoized coerced version. *)
Record t : Type := {
  method : option string;
  version : option string;
  req_semver : option Version
}.

(** [PackageVersion(method, version)]. *)
Definition init (method0 version0 : option string) : t :=
  {| method := method0; version := version0; req_semver := None |}.

(** Lines 194-197 of [fullfills]: fill [req_semver] on first use. *)
Definition ensure_req_semver (self : t) : t * result Version :=
  match req_semver self with
  | Some sv => (self, Ok sv)
  | None =>
      match version self with
      | Some v =>
          if truthy v then
            match Version_coerce (normalize_version_tag v) with
            | Some sv =>
                ({| method := method self; version := version self;
                    req_semver := Some sv |}, Ok sv)
            | None => (self, Raise ValueError)
            end
          else (self, Raise AssertionError)
      | None => (self, Raise AssertionError)
      end
  end.

(** [self.fullfills(version_spec)]: the object after the call, and the
    returned [(message, bool)] or the exception. *)
Definition fullfills (self : t) (version_spec : string)
  : t * result (string * bool) :=
  if bool_decide (version_spec = "*") then (self, Ok ("", true))
  else if bool_decide (method self = Some TRACKING_METHOD_COMMIT) then
    (self, Ok ("tracking method commit not compatible with "
               +:+ dquote +:+ version_spec +:+ dquote, false))
  else if bool_decide (method self = Some TRACKING_METHOD_BRANCH) then
    (self, Ok ("tracking method branch and commit", false))
  else if startswith version_spec "branch=" then
    let branch := drop_chars (String.length "branch=") version_spec in
    (self, Ok ("branch " +:+ branch +:+ " requested, but using method "
               +:+ format (method self), false))
  else
    match ensure_req_semver self with
    | (self', Raise e) => (self', Raise e)
    | (self', Ok req) =>
        match Spec_parse version_spec with
        | None =>
            (self', Ok ("invalid semver spec: "
                        +:+ dquote +:+ version_spec +:+ dquote, false))
        | Some semver_spec =>
            if Spec_contains semver_spec req then (self', Ok ("", true))
            else (self', Ok (format (version self) +:+ " not in "
                             +:+ version_spec, false))
        end
    end.

(** What the caller of [fullfills] sees. *)
Definition fullfills_result (self : t) (version_spec : string)
  : result (string * bool) := (fullfills self version_spec).2.
End WithSemver.
Global Arguments t {_}.
End PackageVersion.

(** ** PackageStatus *)

Module PackageStatus.
Record t : Type := {
  is_loaded : bool;
  is_pinned : bool;
  is_outdated : bool;
  tracking_method : option string;
  current_version : option string;
  current_hash : option string
}.

(** [PackageStatus()] with every argument left at its default. *)
Definition default : t :=
  {| is_loaded := false; is_pinned := false; is_outdated := false;
     tracking_method := None; current_version := None; current_hash := None |}.
End PackageStatus.

(** ** Package: identity, naming, comparison and path matching *)

Module Package.
(** The attributes; [name = None] when [__init__] never assigned it. *)
Record t : Type := {
  git_url : string;
  source : string;
  directory : string;
  metadata : gmap string string;
  name : option string
}.

Definition with_git_url (self : t) (u : string) : t :=
  {| git_url := u; source := source self; directory := directory self;
     metadata := metadata self; name := name self |}.

Definition with_name (self : t) (n : option string) : t :=
  {| git_url := git_url self; source := source self;
     directory := directory self; metadata := metadata self; name := n |}.

(** [Package(git_url, source, directory, metadata, name, canonical)]. *)
Definition init `{OsPath} (git_url0 source0 directory0 : string)
    (metadata0 : option (gmap string string)) (name0 : option string)
    (canonical : bool) : result t :=
  let self := {| git_url := git_url0; source := source0;
                 directory := directory0;
                 metadata := default ∅ metadata0; name := None |} in
  let self := if truthy_opt name0 then with_name self name0 else self in
  if negb canonical then
    let self := with_git_url self (canonical_url git_url0) in
    let self :=
      if negb (truthy source0) && path_exists git_url0
      then with_git_url self (realpath (git_url self))
      else self in
    n ← name_from_path git_url0;
    Ok (with_name self (Some n))
  else Ok self.

(** Reading [self.name]. *)
Definition get_name (self : t) : result string :=
  match name self with
  | Some n => Ok n
  | None => Raise AttributeError
  end.

(** [self.name_with_source_directory()]. *)
Definition name_with_source_directory (self : t) : result string :=
  if truthy (directory self) then
    n ← get_name self; Ok (directory self +:+ "/" +:+ n)
  else get_name self.

(** [self.qualified_name()]. *)
Definition qualified_name (self : t) : result string :=
  if truthy (source self) then
    n ← name_with_source_directory self; Ok (source self +:+ "/" +:+ n)
  else Ok (git_url self).

(** [str(self)]. *)
Definition str (self : t) : result string := qualified_name self.

(** [self.is_builtin()]. *)
Definition is_builtin (self : t) : bool := startswith (git_url self) BUILTIN_SCHEME.

(** The objects a Package is compared with: another Package, or a [str]
    (as [InstalledPackage.__lt__] does). *)
Inductive object : Type :=
| PackageObject (p : t)
| StrObject (s : string).

(** [str(other)]. *)
Definition str_object (other : object) : result string :=
  match other with
  | PackageObject p => str p
  | StrObject s => Ok s
  end.

(** [self.__hash__()]. *)
Definition hash_ `{PyHash} (self : t) : result Z :=
  s ← str self; Ok (hash s).

(** [self.__eq__(other)]. *)
Definition eq (self : t) (other : object) : result bool :=
  a ← str self; b ← str_object other; Ok (bool_decide (a = b)).

(** [self.__lt__(other)]. *)
Definition lt (self : t) (other : object) : result bool :=
  a ← str self; b ← str_object other; Ok (str_lt a b).

(** The loop of [matches_path], from the last component of [path] to the
    first; [n] is [len(path_parts)]. *)
Fixpoint matches_parts (n : Z) (pkg_path_parts : list string)
    (items : list (Z * string)) : result bool :=
  match items with
  | [] => Ok true
  | (i, part) :: rest =>
      let ri := i - n in
      x ← getitem pkg_path_parts ri;
      if bool_decide (part ≠ x) then Ok false
      else matches_parts n pkg_path_parts rest
  end.

(** [self.matches_path(path)]. *)
Definition matches_path (self : t) (path : string) : result bool :=
  let path_parts := split "/" path in
  if truthy (source self) then
    pkg_path ← qualified_name self;
    let pkg_path_parts := split "/" pkg_path in
    matches_parts (len path_parts) pkg_path_parts
      (reverse (enumerate path_parts))
  else
    c ← (if bool_decide (len path_parts = 1) then
           x ← getitem path_parts (-1);
           n ← get_name self;
           Ok (bool_decide (x = n))
         else Ok false);
    if c : bool then Ok true
    else Ok (bool_decide (path = git_url self)).
End Package.


(** [functools.total_ordering]: the comparisons it derives from [__lt__] and
    [__eq__]; the second operand of [or] / [and] is evaluated only when needed. *)
Definition le_from_lt (lt eq : result bool) : result bool :=
  op ← lt; if op : bool then Ok true else eq.

Definition gt_from_lt (lt eq : result bool) : result bool :=
  op ← lt; if op : bool then Ok false else e ← eq; Ok (negb e).

Definition ge_from_lt (lt : result bool) : result bool :=
  op ← lt; Ok (negb op).

(** ** InstalledPackage *)

Module InstalledPackage.
Record t : Type := {
  package : Package.t;
  status : PackageStatus.t
}.

(** The objects an InstalledPackage is compared with. *)
Inductive object : Type :=
| InstalledPackageObject (ip : t)
| OtherObject (o : Package.object).

(** [self.__hash__()]. *)
Definition hash_ `{PyHash} (self : t) : result Z :=
  s ← Package.str (package self); Ok (hash s).

(** [self.__eq__(other)]. *)
Definition eq (self : t) (other : object) : result bool :=
  match other with
  | InstalledPackageObject o =>
      a ← Package.str (package self);
      b ← Package.str (package o);
      Ok (bool_decide (a = b))
  | OtherObject _ => Ok false
  end.

(** [self.__lt__(other)]: the package is compared with a [str]. *)
Definition lt (self : t) (other : object) : result bool :=
  match other with
  | InstalledPackageObject o =>
      b ← Package.str (package o);
      Package.lt (package self) (Package.StrObject b)
  | OtherObject _ => Ok false
  end.

(** [self <= other], [self > other], [self >= other]. *)
Definition le (self : t) (other : object) : result bool :=
  le_from_lt (lt self other) (eq self other).

Definition gt (self : t) (other : object) : result bool :=
  gt_from_lt (lt self other) (eq self other).

Definition ge (self : t) (other : object) : result bool :=
  ge_from_lt (lt self other).

(** [self.is_builtin()]. *)
Definition is_builtin (self : t) : bool := Package.is_builtin (package self).

(** [self.fullfills(version_spec)]: on a fresh PackageVersion. *)
Definition fullfills `{Semver} `{Util} (self : t) (version_spec : string)
  : result (string * bool) :=
  PackageVersion.fullfills_result
    (PackageVersion.init (PackageStatus.tracking_method (status self))
                         (PackageStatus.current_version (status self)))
    version_spec.
End InstalledPackage.

(** ** PackageInfo *)

Module PackageInfo.
Record t : Type := {
  package : Package.t;
  status : option PackageStatus.t;
  metadata : gmap string string;
  versions : list string;
  metadata_version : option string;
  version_type : string;
  invalid_reason : string;
  metadata_file : option string;
  default_branch : option string
}.

(** [PackageInfo(package, status, metadata, versions, metadata_version,
    invalid_reason, version_type, metadata_file, default_branch)]. *)
Definition init (package0 : Package.t) (status0 : option PackageStatus.t)
    (metadata0 : option (gmap string string)) (versions0 : option (list string))
    (metadata_version0 : option string) (invalid_reason0 version_type0 : string)
    (metadata_file0 default_branch0 : option string) : t :=
  {| package := package0; status := status0;
     metadata := default ∅ metadata0; versions := default [] versions0;
     metadata_version := metadata_version0; version_type := version_type0;
     invalid_reason := invalid_reason0; metadata_file := metadata_file0;
     default_branch := default_branch0 |}.

(** Truth value of a list: the empty list is false. *)
Definition nonempty (l : list string) : bool :=
  match l with
  | [] => false
  | _ :: _ => true
  end.

(** [self.best_version()]. *)
Definition best_version (self : t) : result string :=
  if nonempty (versions self) then getitem (versions self) (-1)
  else
    match default_branch self with
    | Some b => if truthy b then Ok b else Raise AssertionError
    | None => Raise AssertionError
    end.

(** [self.dependencies(field)]. *)
Definition dependencies_ (self : t) (field : string)
  : result (option (gmap string string)) :=
  dependencies (metadata self) field.
End PackageInfo.

(** [make_builtin_package(name=..., current_version=..., current_hash=...)]. *)
Definition make_builtin_package `{OsPath} (name0 current_version0 : string)
    (current_hash0 : option string) : result PackageInfo.t :=
  package ← Package.init (BUILTIN_SCHEME +:+ name0) BUILTIN_SOURCE "" None
              (Some name0) true;
  let status :=
    {| PackageStatus.is_loaded := true;
       PackageStatus.is_pinned := true;
       PackageStatus.is_outdated := false;
       PackageStatus.tracking_method := Some TRACKING_METHOD_BUILTIN;
       PackageStatus.current_version := Some current_version0;
       PackageStatus.current_hash := current_hash0 |} in
  Ok (PackageInfo.init package (Some status) None (Some [current_version0])
        (Some "") "" "" None None).

(** ** The rest of the module: names, metadata fields, derived comparisons *)

(** [is_valid_name(name)]. *)
Definition is_valid_name (name : string) : bool :=
  if bool_decide (name ≠ strip_ws name) then false
  else if contains_char "/" name then false
  else if startswith name "." then false
  else if bool_decide (name = "package" ∨ name = "packages") then false
  else true.

(** [aliases(metadata_dict)]. *)
Definition aliases (metadata_dict : gmap string string) : list string :=
  match metadata_dict !! "aliases" with
  | None => []
  | Some v => re_split match_comma_ws_or_ws v
  end.

(** [tags(metadata_dict)]. *)
Definition tags (metadata_dict : gmap string string) : list string :=
  match metadata_dict !! "tags" with
  | None => []
  | Some v => re_split match_comma_ws v
  end.

(** [zeekpkg._util.find_sentence_end]: the index of the end of the first
    sentence of a line, or -1. *)
Class Sentences := {
  find_sentence_end : string -> Z
}.

(** The loop of [short_description], lines 93-102, on the lines left. *)
Fixpoint short_description_loop `{Sentences} (rval : string)
    (lines : list string) : string :=
  match lines with
  | [] => rval
  | line :: rest =>
      let line := lstrip_ws line in
      let rval := rval +:+ " " in
      let period_idx := find_sentence_end line in
      if bool_decide (period_idx = -1)
      then short_description_loop (rval +:+ line) rest
      else rval +:+ slice_to line (period_idx + 1)
  end.

(** [short_description(metadata_dict)]. *)
Definition short_description `{Sentences} (metadata_dict : gmap string string)
  : string :=
  match metadata_dict !! "description" with
  | None => EmptyString
  | Some description =>
      lstrip_ws (short_description_loop EmptyString (split "010" description))
  end.

(** [self <= other], [self > other], [self >= other] on a Package, as
    total_ordering derives them. *)
Definition Package_le (self : Package.t) (other : Package.object) : result bool :=
  le_from_lt (Package.lt self other) (Package.eq self other).

Definition Package_gt (self : Package.t) (other : Package.object) : result bool :=
  gt_from_lt (Package.lt self other) (Package.eq self other).

Definition Package_ge (self : Package.t) (other : Package.object) : result bool :=
  ge_from_lt (Package.lt self other).

(** ** A reference instance of the collaborators

    Every theorem below is proved for arbitrary collaborators; the worked
    examples need concrete ones.  This instance covers the numeric fragment:
    a version is [major[.minor[.patch]]] padded with zeros (anything after it
    is ignored), a tag loses a leading [v] that stands before a digit, a range
    is a comma-separated list of clauses [<op>major.minor.patch] with [<op>]
    one of [<], [<=], [>], [>=], [==], [!=], and no path exists on disk. *)

Module Reference.

(** The digits at the head of [s], read in base ten onto [acc], and the rest. *)
Fixpoint read_digits (acc : nat) (s : string) : nat * string :=
  match s with
  | EmptyString => (acc, EmptyString)
  | String a s' =>
      match Ascii.is_nat a with
      | Some d => read_digits (10 * acc + d) s'
      | None => (acc, s)
      end
  end.

(** A non-empty run of digits at the head of [s], and the rest. *)
Definition read_nat (s : string) : option (nat * string) :=
  match s with
  | EmptyString => None
  | String a _ =>
      match Ascii.is_nat a with
      | Some _ => Some (read_digits 0 s)
      | None => None
      end
  end.

(** A dot followed by a number. *)
Definition read_dot_nat (s : string) : option (nat * string) :=
  match s with
  | String "." s' => read_nat s'
  | _ => None
  end.

(** Lenient coercion: [None] when [s] does not begin with a digit. *)
Definition coerce (s : string) : option (nat * nat * nat) :=
  match read_nat s with
  | None => None
  | Some (major, r1) =>
      match read_dot_nat r1 with
      | None => Some (major, 0, 0)%nat
      | Some (minor, r2) =>
          match read_dot_nat r2 with
          | None => Some (major, minor, 0)%nat
          | Some (patch, _) => Some (major, minor, patch)
          end
      end
  end.

(** The comparators of a clause. *)
Inductive comparator : Set := CLt | CLe | CGt | CGe | CEq | CNe.

Definition read_comparator (s : string) : option (comparator * string) :=
  match s with
  | String "<" (String "=" r) => Some (CLe, r)
  | String "<" r => Some (CLt, r)
  | String ">" (String "=" r) => Some (CGe, r)
  | String ">" r => Some (CGt, r)
  | String "=" (String "=" r) => Some (CEq, r)
  | String "!" (String "=" r) => Some (CNe, r)
  | _ => None
  end.

(** Exactly [major.minor.patch], nothing after it. *)
Definition read_full_version (s : string) : option (nat * nat * nat) :=
  '(major, r1) ← read_nat s;
  '(minor, r2) ← read_dot_nat r1;
  '(patch, r3) ← read_dot_nat r2;
  if truthy r3 then None else Some (major, minor, patch).

Definition parse_clause (s : string) : option (comparator * (nat * nat * nat)) :=
  '(c, r) ← read_comparator s;
  v ← read_full_version r;
  Some (c, v).

(** A range: every clause between the commas must parse. *)
Definition parse (s : string) : option (list (comparator * (nat * nat * nat))) :=
  mapM parse_clause (split "," s).

(** Precedence: major, then minor, then patch. *)
Definition version_compare (v w : nat * nat * nat) : comparison :=
  let '(a1, b1, c1) := v in
  let '(a2, b2, c2) := w in
  match Nat.compare a1 a2 with
  | Eq => match Nat.compare b1 b2 with
          | Eq => Nat.compare c1 c2
          | c => c
          end
  | c => c
  end.

Definition clause_holds (v : nat * nat * nat)
    (cl : comparator * (nat * nat * nat)) : bool :=
  match cl.1, version_compare v cl.2 with
  | CLt, Lt | CLe, Lt | CLe, Eq | CGt, Gt | CGe, Gt | CGe, Eq | CEq, Eq
  | CNe, Lt | CNe, Gt => true
  | _, _ => false
  end.

(** Modelled from the spec: the version-tag normalization helper of
    [zeekpkg._util] is not among the sources at hand.  The specification
    has the tag v1.2.3 compared as 1.2.3, so this instance drops a leading
    [v] that stands before a digit and leaves every other tag as it is.
    Only the worked examples use it. *)
Definition strip_v (tag : string) : string :=
  match tag with
  | String "v" (String d r) =>
      match Ascii.is_nat d with
      | Some _ => String d r
      | None => tag
      end
  | _ => tag
  end.

#[export] Instance numeric_semver : Semver := {|
  Version := nat * nat * nat;
  Spec := list (comparator * (nat * nat * nat));
  Version_coerce := coerce;
  Spec_parse := parse;
  Spec_contains := fun sp v => forallb (clause_holds v) sp
|}.

#[export] Instance strip_v_util : Util := {|
  normalize_version_tag := strip_v
|}.

(** A file system on which no path exists.  [realpath] is left as the
    identity: the examples canonicalize URLs only, which are never resolved. *)
#[export] Instance no_files : OsPath := {|
  realpath := fun p => p;
  path_exists := fun _ => false
|}.

(** Some hash function on strings. *)
#[export] Instance length_hash : PyHash := {|
  hash := fun s => Z.of_nat (String.length s)
|}.

End Reference.


(** ** Sample values for the worked examples *)

Module Sample.

(** The package foo declared in alice/zkg.index of the source src. *)
Definition alice_foo : Package.t :=
  {| Package.git_url := "https://example.com/alice/foo";
     Package.source := "src"; Package.directory := "alice";
     Package.metadata := ∅; Package.name := Some "foo" |}.

(** A package with the same source, directory and name, found at another
    URL and carrying metadata. *)
Definition alice_foo_mirror : Package.t :=
  {| Package.git_url := "https://mirror.example.org/foo.git";
     Package.source := "src"; Package.directory := "alice";
     Package.metadata := {[ "tags" := "mirror" ]}; Package.name := Some "foo" |}.

(** A package referred to by its URL, outside any source. *)
Definition direct_foo : Package.t :=
  {| Package.git_url := "https://example.com/org/foo";
     Package.source := ""; Package.directory := "";
     Package.metadata := ∅; Package.name := Some "foo" |}.

(** The package bar at the top level of the source src. *)
Definition top_bar : Package.t :=
  {| Package.git_url := "https://example.com/bar";
     Package.source := "src"; Package.directory := "";
     Package.metadata := ∅; Package.name := Some "bar" |}.

Definition loaded_on_main : PackageStatus.t :=
  {| PackageStatus.is_loaded := true; PackageStatus.is_pinned := false;
     PackageStatus.is_outdated := true;
     PackageStatus.tracking_method := Some TRACKING_METHOD_BRANCH;
     PackageStatus.current_version := Some "main";
     PackageStatus.current_hash := Some "0123abcd" |}.

Definition pinned_release : PackageStatus.t :=
  {| PackageStatus.is_loaded := false; PackageStatus.is_pinned := true;
     PackageStatus.is_outdated := false;
     PackageStatus.tracking_method := Some TRACKING_METHOD_VERSION;
     PackageStatus.current_version := Some "v1.2.3";
     PackageStatus.current_hash := Some "89efcdab" |}.

(** PackageInfo(direct_foo, versions=..., default_branch=...). *)
Definition info (versions0 : list string) (default_branch0 : option string)
  : PackageInfo.t :=
  PackageInfo.init direct_foo None None (Some versions0) (Some "") "" ""
    None default_branch0.

End Sample.

(** A sentence-end finder for the worked examples: the index of the first
    full stop, exclamation mark or question mark of the line, or -1.  The
    helper of [zeekpkg._util] is not among the sources at hand, and every
    theorem is proved for an arbitrary one. *)
Module SampleSentences.

Fixpoint first_terminator (i : Z) (s : string) : Z :=
  match s with
  | EmptyString => -1
  | String a s' =>
      if bool_decide (a = "."%char ∨ a = "!"%char ∨ a = "?"%char) then i
      else first_terminator (i + 1) s'
  end.

#[export] Instance first_terminator_sentences : Sentences := {|
  find_sentence_end := first_terminator 0
|}.

End SampleSentences.

(** ** Vocabulary of the statements *)

(** [n] copies of the character [c]. *)
Fixpoint repeat_char (n : nat) (c : ascii) : string :=
  match n with
  | O => EmptyString
  | S n' => String c (repeat_char n' c)
  end.

(** The last character of [s] is [c]. *)
Fixpoint ends_with (c : ascii) (s : string) : bool :=
  match s with
  | EmptyString => false
  | String a s' =>
      match s' with
      | EmptyString => bool_decide (a = c)
      | String _ _ => ends_with c s'
      end
  end.

(** "Strips a single trailing slash", as the specification words it: one
    trailing [c] is removed when there is one. *)
Fixpoint strip_one_trailing (c : ascii) (s : string) : string :=
  match s with
  | EmptyString => EmptyString
  | String a s' =>
      match s' with
      | EmptyString => if bool_decide (a = c) then EmptyString else s
      | String _ _ => String a (strip_one_trailing c s')
      end
  end.

(** [sep.join(l)] for a one-character separator. *)
Fixpoint join (sep : ascii) (l : list string) : string :=
  match l with
  | [] => EmptyString
  | [w] => w
  | w :: l' => w +:+ String sep (join sep l')
  end.

(** No character of [s] is white space. *)
Fixpoint no_space (s : string) : bool :=
  match s with
  | EmptyString => true
  | String a s' => negb (isspace a) && no_space s'
  end.

(** The first character of [s] is white space. *)
Definition first_is_space (s : string) : bool :=
  match s with
  | EmptyString => false
  | String a _ => isspace a
  end.

(** The last character of [s] is white space. *)
Fixpoint last_is_space (s : string) : bool :=
  match s with
  | EmptyString => false
  | String a s' =>
      match s' with
      | EmptyString => isspace a
      | String _ _ => last_is_space s'
      end
  end.

(** Some character of [s] satisfies [P]. *)
Fixpoint has_char (P : ascii -> bool) (s : string) : bool :=
  match s with
  | EmptyString => false
  | String a s' => P a || has_char P s'
  end.

(** [sep.join(l)] for a separator of any length. *)
Fixpoint join_str (sep : string) (l : list string) : string :=
  match l with
  | [] => EmptyString
  | [w] => w
  | w :: l' => w +:+ sep +:+ join_str sep l'
  end.

(** The tokens of a dependency field: name, spec, name, spec, ... *)
Fixpoint flatten_pairs (l : list (string * string)) : list string :=
  match l with
  | [] => []
  | (k, v) :: l' => k :: v :: flatten_pairs l'
  end.

(** The lexicographic order on strings, by code point. *)
Inductive lex_lt : string -> string -> Prop :=
| lex_lt_nil b t : lex_lt EmptyString (String b t)
| lex_lt_head a b s t :
    (N_of_ascii a < N_of_ascii b)%N -> lex_lt (String a s) (String b t)
| lex_lt_tail a s t : lex_lt s t -> lex_lt (String a s) (String a t).

(** The comparison of [matches_path] read on the reversed component lists:
    the components of the path against those of the qualified name, last
    one first. *)
Fixpoint match_reversed (rp rq : list string) : result bool :=
  match rp with
  | [] => Ok true
  | x :: rp' =>
      match rq with
      | [] => Raise IndexError
      | y :: rq' =>
          if bool_decide (x ≠ y) then Ok false else match_reversed rp' rq'
      end
  end.

(** A call of [fullfills] that gets past the wildcard, the commit and branch
    tracking methods and the [branch=] requests, to the semantic versions. *)
Definition reaches_semver `{Semver} (pv : PackageVersion.t) (spec : string) : Prop :=
  spec ≠ "*"
  ∧ PackageVersion.method pv ≠ Some TRACKING_METHOD_COMMIT
  ∧ PackageVersion.method pv ≠ Some TRACKING_METHOD_BRANCH
  ∧ startswith spec "branch=" = false.

#[export] Instance reaches_semver_dec `{Semver} (pv : PackageVersion.t) (spec : string) :
  Decision (reaches_semver pv spec).
Proof. unfold reaches_semver. apply _. Defined.

(** The normalized semantic version of [pv] is available and is [sv]: it is
    memoized already, or the raw version is present, non-empty and coerces. *)
Definition normalized `{Semver} `{Util} (pv : PackageVersion.t) (sv : Version) : Prop :=
  PackageVersion.req_semver pv = Some sv
  ∨ (PackageVersion.req_semver pv = None
     ∧ ∃ v, PackageVersion.version pv = Some v ∧ v ≠ EmptyString
            ∧ Version_coerce (normalize_version_tag v) = Some sv).

(** The PackageVersion left by a run of [fullfills] calls, one per spec. *)
Definition after_calls `{Semver} `{Util} (pv : PackageVersion.t)
    (specs : list string) : PackageVersion.t :=
  foldl (λ pv spec, (PackageVersion.fullfills pv spec).1) pv specs.

(** ** Strings and lists *)

Section PyFacts.

Lemma split_nonempty sep s : split sep s ≠ [].
Proof.
  destruct s as [|a s]; simpl; [done|].
  case_bool_decide; [done|]. by destruct (split sep s).
Qed.

Lemma split_single sep s : length (split sep s) = 1%nat → split sep s = [s].
Proof.
  induction s as [|a s IH]; simpl; [done|].
  case_bool_decide.
  - simpl. intros [=Hl]. pose proof (split_nonempty sep s) as Hne.
    by destruct (split sep s).
  - destruct (split sep s) as [|w ws] eqn:Hs; [by apply split_nonempty in Hs|].
    simpl in *. intros [=Hl]. destruct ws; [|done].
    specialize (IH eq_refl). by simplify_eq.
Qed.

Lemma getitem_neg {A} (l : list A) (d : nat) :
  getitem l (-1 - Z.of_nat d)
  = match reverse l !! d with Some y => Ok y | None => Raise IndexError end.
Proof.
  unfold getitem, len.
  destruct (Z.ltb_spec (-1 - Z.of_nat d) 0) as [_|]; [|lia].
  destruct (Z.ltb_spec (-1 - Z.of_nat d + Z.of_nat (length l)) 0) as [Hlt|Hge].
  - rewrite lookup_ge_None_2; [done|]. rewrite length_reverse. lia.
  - rewrite reverse_lookup; [|lia].
    replace (Z.to_nat (-1 - Z.of_nat d + Z.of_nat (length l)))
      with (length l - S d)%nat by lia.
    done.
Qed.

Lemma getitem_last {A} (l : list A) (x : A) : getitem (l ++ [x]) (-1) = Ok x.
Proof.
  change (-1) with (-1 - Z.of_nat 0). rewrite getitem_neg.
  by rewrite reverse_snoc.
Qed.

Lemma getitem_nat {A} (l : list A) (i : nat) (x : A) :
  l !! i = Some x → getitem l (Z.of_nat i) = Ok x.
Proof.
  intros Hi. unfold getitem. cbv zeta.
  assert ((Z.of_nat i <? 0) = false) as Hn by (apply Z.ltb_ge; lia).
  by rewrite Hn, Nat2Z.id, Hi, Hn.
Qed.

Lemma app_cons a s t : String a s +:+ t = String a (s +:+ t).
Proof. reflexivity. Qed.

Lemma app_empty_l t : EmptyString +:+ t = t.
Proof. reflexivity. Qed.

Lemma rstrip_decompose c s :
  ∃ n, s = rstrip c s +:+ repeat_char n c ∧ ends_with c (rstrip c s) = false.
Proof.
  induction s as [|a s (n & Hs & Hend)]; [by exists 0%nat|].
  simpl. destruct (rstrip c s) as [|b r] eqn:Hr.
  - rewrite app_empty_l in Hs. case_bool_decide as Hac.
    + exists (S n). subst a. by rewrite app_empty_l, Hs.
    + exists n. rewrite app_cons, app_empty_l, <-Hs. split; [done|].
      by apply bool_decide_eq_false.
  - exists n. split; [|done]. by rewrite app_cons, <-Hs.
Qed.

Lemma rstrip_id c s : ends_with c s = false → rstrip c s = s.
Proof.
  induction s as [|a s IH]; [done|].
  simpl. destruct s as [|b s].
  - intros Hac. simpl. by rewrite Hac.
  - intros Hend. by rewrite (IH Hend).
Qed.

Lemma rstrip_strip_one c s :
  ends_with c (strip_one_trailing c s) = false →
  rstrip c s = strip_one_trailing c s.
Proof.
  induction s as [|a s IH]; [done|].
  cbn [strip_one_trailing rstrip]. destruct s as [|b s].
  - simpl. by case_bool_decide.
  - intros Hend.
    assert (ends_with c (strip_one_trailing c (String b s)) = false) as Hend'.
    { cbn [ends_with] in Hend.
      destruct (strip_one_trailing c (String b s)) eqn:E; [done|exact Hend]. }
    rewrite (IH Hend').
    destruct (strip_one_trailing c (String b s)) eqn:E; [|done].
    simpl in Hend. by rewrite Hend.
Qed.

Lemma startswith_char s ch :
  startswith s (String ch EmptyString) = true ↔ ∃ t, s = String ch t.
Proof.
  unfold startswith. destruct s as [|a s]; simpl.
  - split; [done|]. by intros [? ?].
  - destruct (ascii_dec ch a) as [->|Hne].
    + split; [eauto|]. by destruct s.
    + split; [done|]. intros [t [=]]. congruence.
Qed.

Lemma startswith_rstrip c s ch :
  startswith s (String ch EmptyString) = false →
  startswith (rstrip c s) (String ch EmptyString) = false.
Proof.
  intros Hs. apply not_true_is_false. intros [t Ht]%startswith_char.
  apply not_true_iff_false in Hs. apply Hs, startswith_char.
  destruct s as [|a s]; [done|]. simpl in Ht.
  destruct (rstrip c s); [case_bool_decide|]; simplify_eq; eauto.
Qed.

(** Splitting loses nothing: joining the components gives the string back. *)
Lemma join_split sep s : join sep (split sep s) = s.
Proof.
  induction s as [|a s IH]; [done|]. simpl.
  pose proof (split_nonempty sep s) as Hne.
  destruct (split sep s) as [|w ws] eqn:Hs; [done|].
  case_bool_decide as Ha.
  - subst a.
    change (join sep (EmptyString :: w :: ws))
      with (EmptyString +:+ String sep (join sep (w :: ws))).
    by rewrite app_empty_l, IH.
  - destruct ws as [|w' ws]; [simpl in *; by rewrite IH|].
    change (join sep (String a w :: w' :: ws))
      with (String a w +:+ String sep (join sep (w' :: ws))).
    rewrite app_cons. f_equal. exact IH.
Qed.

(** No component holds the separator. *)
Lemma split_no_separator sep s w t1 t2 :
  w ∈ split sep s → w ≠ t1 +:+ String sep t2.
Proof.
  revert w t1. induction s as [|a s IH]; intros w t1; simpl.
  - intros ->%list_elem_of_singleton. by destruct t1.
  - pose proof (split_nonempty sep s) as Hne.
    case_bool_decide as Ha.
    + intros [->|Hin]%elem_of_cons; [by destruct t1|by apply IH].
    + destruct (split sep s) as [|w' ws] eqn:Hs; [done|].
      intros [->|Hin]%elem_of_cons.
      * destruct t1 as [|b t1]; [rewrite app_empty_l; congruence|].
        rewrite app_cons. intros [= _ Hw]. by apply (IH w' t1); [left|].
      * apply IH. by right.
Qed.

(** The tokens of the white-space split are non-empty and free of white space. *)
Lemma split_ws_tokens s :
  Forall (λ w, w ≠ EmptyString ∧ no_space w = true) (split_ws s).
Proof.
  induction s as [|a s IH]; [by constructor|]. cbn [split_ws].
  destruct (isspace a) eqn:Ha; [done|].
  assert (no_space (String a EmptyString) = true) as Ha1 by (simpl; by rewrite Ha).
  destruct s as [|b s]; [by repeat constructor|].
  destruct (isspace b) eqn:Hb; [by constructor|].
  destruct (split_ws (String b s)) as [|w ws]; [by repeat constructor|].
  apply Forall_cons in IH as [[_ Hw] Hws].
  constructor; [|done]. split; [done|]. simpl. by rewrite Ha, Hw.
Qed.

Lemma str_lt_lex s t : str_lt s t = true ↔ lex_lt s t.
Proof.
  revert t. induction s as [|a s IH]; intros [|b t]; simpl.
  - split; [done|]. inversion 1.
  - split; [constructor|done].
  - split; [done|]. inversion 1.
  - destruct (N.ltb_spec (N_of_ascii a) (N_of_ascii b)) as [Hlt|Hge].
    + split; [by constructor|done].
    + case_bool_decide as Hab.
      * subst b. rewrite IH. split; [by constructor|].
        inversion 1; subst; [lia|done].
      * split; [done|]. inversion 1; subst; [lia|done].
Qed.

Lemma str_lt_ltb s t : str_lt s t = String.ltb s t.
Proof.
  unfold String.ltb. revert t.
  induction s as [|a s IH]; intros [|b t]; simpl; try done.
  rewrite IH. unfold Ascii.compare.
  destruct (N.ltb_spec (N_of_ascii a) (N_of_ascii b)) as [Hlt|Hge].
  - by apply N.compare_lt_iff in Hlt as ->.
  - case_bool_decide as Hab.
    + subst b. by rewrite N.compare_refl.
    + destruct (N.compare_spec (N_of_ascii a) (N_of_ascii b)) as [He|?|?];
        [|lia|done].
      destruct Hab. by rewrite <-(ascii_N_embedding a), <-(ascii_N_embedding b), He.
Qed.

Lemma str_lt_irrefl s : str_lt s s = false.
Proof.
  induction s as [|a s IH]; [done|]. simpl.
  rewrite N.ltb_irrefl. by rewrite bool_decide_true.
Qed.

End PyFacts.

(** ** canonical_url *)

Section CanonicalUrl.
Context `{OsPath}.

(** A locator that begins with neither [.] nor [/] is never resolved on the
    file system: only its trailing slashes are dropped. *)
Lemma canonical_url_no_resolution (locator : string) :
  startswith locator "." = false →
  startswith locator "/" = false →
  canonical_url locator = rstrip "/" locator.
Proof.
  intros Hdot Hslash. unfold canonical_url.
  by rewrite (startswith_rstrip _ _ _ Hdot), (startswith_rstrip _ _ _ Hslash).
Qed.

(** C6, as amended: for a locator that begins with neither [.] nor [/],
    canonical_url removes every trailing slash, however many there are: the
    locator is the result followed by slashes only, the result does not end
    in a slash, and a locator without a trailing slash is returned unchanged. *)
Theorem canonical_url_strips_trailing_slashes (locator : string) :
  startswith locator "." = false →
  startswith locator "/" = false →
  (∃ n, locator = canonical_url locator +:+ repeat_char n "/")
  ∧ ends_with "/" (canonical_url locator) = false
  ∧ (ends_with "/" locator = false → canonical_url locator = locator).
Proof.
  intros Hdot Hslash. rewrite (canonical_url_no_resolution _ Hdot Hslash).
  destruct (rstrip_decompose "/" locator) as (n & Hn & Hend).
  split; [by exists n|]. split; [done|]. apply rstrip_id.
Qed.

(** Where the wording of the specification and the code agree: a locator
    with at most one trailing slash. *)
Lemma canonical_url_single_slash (locator : string) :
  startswith locator "." = false →
  startswith locator "/" = false →
  ends_with "/" (strip_one_trailing "/" locator) = false →
  canonical_url locator = strip_one_trailing "/" locator.
Proof.
  intros Hdot Hslash Hone. rewrite (canonical_url_no_resolution _ Hdot Hslash).
  by apply rstrip_strip_one.
Qed.

End CanonicalUrl.

(** The witness of C6: a URL with three trailing slashes. *)
Lemma canonical_url_strips_trailing_slashes_witness :
  (∃ n, "https://example.com/org/foo///"
        = @canonical_url Reference.no_files "https://example.com/org/foo///"
          +:+ repeat_char n "/")
  ∧ ends_with "/" (@canonical_url Reference.no_files "https://example.com/org/foo///") = false
  ∧ (ends_with "/" "https://example.com/org/foo///" = false →
     @canonical_url Reference.no_files "https://example.com/org/foo///"
     = "https://example.com/org/foo///").
Proof.
  apply (@canonical_url_strips_trailing_slashes Reference.no_files
           "https://example.com/org/foo///"); reflexivity.
Defined.

(** C6, as stated, fails: on a locator with two trailing slashes the code
    removes both, where removing a single one would leave ["foo/"]. *)
Lemma canonical_url_two_trailing_slashes :
  @canonical_url Reference.no_files "foo//" = "foo"
  ∧ strip_one_trailing "/" "foo//" = "foo/"
  ∧ @canonical_url Reference.no_files "foo//" ≠ strip_one_trailing "/" "foo//".
Proof. split; [reflexivity|]. split; [reflexivity|]. discriminate. Qed.

(** ** PackageVersion.fullfills *)

Section Fullfills.
Context `{Semver} `{Util}.

Import PackageVersion.

(** C1: the wildcard is fulfilled by every PackageVersion; any other spec is
    refused, with a message, by a commit-tracked and by a branch-tracked
    PackageVersion, a [branch=<name>] spec included. *)
Theorem fullfills_wildcard_commit_branch (pv : PackageVersion.t) (spec : string) :
  fullfills_result pv "*" = Ok ("", true)
  ∧ (spec ≠ "*" → method pv = Some "commit" →
     fullfills_result pv spec
     = Ok ("tracking method commit not compatible with "
           +:+ dquote +:+ spec +:+ dquote, false))
  ∧ (spec ≠ "*" → method pv = Some "branch" →
     fullfills_result pv spec = Ok ("tracking method branch and commit", false))
  ∧ (∀ name : string, method pv = Some "branch" →
     fullfills_result pv ("branch=" +:+ name)
     = Ok ("tracking method branch and commit", false)).
Proof.
  unfold fullfills_result, fullfills. repeat split.
  - intros Hspec Hm. rewrite bool_decide_false by done.
    by rewrite bool_decide_true by done.
  - intros Hspec Hm. rewrite bool_decide_false by done.
    rewrite bool_decide_false by (rewrite Hm; discriminate).
    by rewrite bool_decide_true by done.
  - intros name Hm. rewrite bool_decide_false by discriminate.
    rewrite bool_decide_false by (rewrite Hm; discriminate).
    by rewrite bool_decide_true by done.
Qed.

End Fullfills.

(** The witness of C1: a commit-tracked and a branch-tracked version against
    a range and against a branch request. *)
Lemma fullfills_wildcard_commit_branch_witness :
  @PackageVersion.fullfills_result Reference.numeric_semver Reference.strip_v_util
    (PackageVersion.init (Some "commit") (Some "v1.2.3")) ">=1.0.0"
  = Ok ("tracking method commit not compatible with "
        +:+ dquote +:+ ">=1.0.0" +:+ dquote, false)
  ∧ @PackageVersion.fullfills_result Reference.numeric_semver Reference.strip_v_util
      (PackageVersion.init (Some "branch") (Some "main")) "branch=main"
    = Ok ("tracking method branch and commit", false).
Proof.
  split.
  - refine (proj1 (proj2 (@fullfills_wildcard_commit_branch
             Reference.numeric_semver Reference.strip_v_util
             (PackageVersion.init (Some "commit") (Some "v1.2.3")) ">=1.0.0")) _ _);
      [discriminate|reflexivity].
  - refine (proj1 (proj2 (proj2 (@fullfills_wildcard_commit_branch
             Reference.numeric_semver Reference.strip_v_util
             (PackageVersion.init (Some "branch") (Some "main")) "branch=main"))) _ _);
      [discriminate|reflexivity].
Defined.

Section FullfillsSemver.
Context `{Semver} `{Util}.

Import PackageVersion.

Lemma truthy_nonempty (s : string) : truthy s = true ↔ s ≠ EmptyString.
Proof. by destruct s. Qed.

Lemma ensure_req_semver_normalized (pv : PackageVersion.t) (sv : Version) :
  normalized pv sv ↔ (ensure_req_semver pv).2 = Ok sv.
Proof.
  unfold normalized, ensure_req_semver.
  destruct (req_semver pv) as [sv'|]; simpl.
  { split; [by intros [[= ->]|[? _]]|by intros [= ->]; left]. }
  destruct (version pv) as [v|]; simpl;
    [|split; [by intros [|[_ (? & ? & _)]]|done]].
  destruct v as [|a v]; simpl;
    [split; [by intros [|[_ (? & [= <-] & ? & _)]]|done]|].
  destruct (Version_coerce _) as [sv'|] eqn:Hc; simpl.
  - split.
    + intros [|[_ (v' & [= <-] & _ & Hv')]]; [done|]. congruence.
    + intros [= ->]. right. split; [done|]. eexists. by rewrite Hc.
  - split; [|done]. intros [|[_ (v' & [= <-] & _ & Hv')]]; [done|]. congruence.
Qed.

(** Past the four early returns, the answer is that of the range test on
    the memoized or freshly coerced version. *)
Lemma fullfills_semver_path (pv : PackageVersion.t) (spec : string) :
  reaches_semver pv spec →
  fullfills_result pv spec
  = match (ensure_req_semver pv).2 with
    | Raise e => Raise e
    | Ok req =>
        match Spec_parse spec with
        | None =>
            Ok ("invalid semver spec: " +:+ dquote +:+ spec +:+ dquote, false)
        | Some range =>
            if Spec_contains range req then Ok ("", true)
            else Ok (format (version pv) +:+ " not in " +:+ spec, false)
        end
    end.
Proof.
  intros (Hstar & Hcommit & Hbranch & Hprefix).
  unfold fullfills_result, fullfills.
  rewrite !bool_decide_false by done. rewrite Hprefix.
  destruct (ensure_req_semver pv) as [pv' [req|e]]; simpl; [|done].
  destruct (Spec_parse spec) as [range|]; [|done].
  by destruct (Spec_contains range req).
Qed.

(** Before the semantic versions, every path returns a pair. *)
Lemma fullfills_early_return (pv : PackageVersion.t) (spec : string) :
  ¬ reaches_semver pv spec →
  ∃ msg ok, fullfills_result pv spec = Ok (msg, ok).
Proof.
  intros Hno. unfold fullfills_result, fullfills.
  case_bool_decide as Hstar; [by eauto|].
  case_bool_decide as Hcommit; [by eauto|].
  case_bool_decide as Hbranch; [by eauto|].
  destruct (startswith spec "branch=") eqn:Hprefix; [by eauto|].
  by destruct Hno.
Qed.

(** C2, as amended: for a version- or builtin-tracked PackageVersion whose
    normalized version is available, and a spec that is not the wildcard and
    no branch request, a spec that does not parse gives the message
    [invalid semver spec: "<spec>"] (the spec between double quotes) with
    false, and a spec that parses gives [("", true)] when the normalized
    version lies in the range and [("<version> not in <spec>", false)] when
    it does not. *)
Theorem fullfills_semver_range (pv : PackageVersion.t) (spec : string) (sv : Version) :
  method pv = Some "version" ∨ method pv = Some "builtin" →
  spec ≠ "*" →
  startswith spec "branch=" = false →
  normalized pv sv →
  fullfills_result pv spec
  = match Spec_parse spec with
    | None => Ok ("invalid semver spec: " +:+ dquote +:+ spec +:+ dquote, false)
    | Some range =>
        if Spec_contains range sv then Ok ("", true)
        else Ok (format (version pv) +:+ " not in " +:+ spec, false)
    end.
Proof.
  intros Hm Hstar Hprefix Hsv%ensure_req_semver_normalized.
  rewrite fullfills_semver_path, Hsv; [done|].
  split; [done|]. by destruct Hm as [-> | ->].
Qed.

(** C3, as amended: fullfills raises exactly on the path to the semantic
    versions when nothing is memoized yet: AssertionError when the raw
    version is absent or empty, and the ValueError of the coercion when the
    normalized tag does not coerce.  On every other call (an early return,
    or an available normalized version) it returns a (message, ok) pair; a
    spec that does not parse is one of these. *)
Theorem fullfills_raises_iff (pv : PackageVersion.t) (spec : string) :
  (∀ e, fullfills_result pv spec = Raise e ↔
        reaches_semver pv spec ∧ req_semver pv = None
        ∧ ((truthy_opt (version pv) = false ∧ e = AssertionError)
           ∨ (∃ v, version pv = Some v ∧ truthy v = true
                   ∧ Version_coerce (normalize_version_tag v) = None
                   ∧ e = ValueError)))
  ∧ ((¬ reaches_semver pv spec ∨ ∃ sv, normalized pv sv) →
     ∃ msg ok, fullfills_result pv spec = Ok (msg, ok)).
Proof.
  split.
  - intros e. split.
    + intros Hraise.
      assert (reaches_semver pv spec) as Hreach.
      { destruct (decide (reaches_semver pv spec)) as [|Hno]; [done|].
        destruct (fullfills_early_return pv spec Hno) as (? & ? & ?). congruence. }
      split; [done|]. rewrite fullfills_semver_path in Hraise by done.
      unfold ensure_req_semver in Hraise.
      destruct (req_semver pv) as [sv|]; simpl in Hraise.
      { destruct (Spec_parse spec) as [r|]; [destruct (Spec_contains r sv)|]; done. }
      split; [done|].
      destruct (version pv) as [v|]; simpl in *; [|left; by simplify_eq].
      destruct (truthy v) eqn:Hv; simpl in *; [|left; by simplify_eq].
      destruct (Version_coerce _) as [sv|] eqn:Hc; simpl in *.
      { destruct (Spec_parse spec) as [r|]; [destruct (Spec_contains r sv)|]; done. }
      right. exists v. by simplify_eq.
    + intros (Hreach & Hmemo & Hcase).
      rewrite fullfills_semver_path by done. unfold ensure_req_semver.
      rewrite Hmemo.
      destruct Hcase as [[Hv ->]|(v & Hv & Ht & Hc & ->)].
      * destruct (version pv) as [v|]; simpl in *; [by rewrite Hv|done].
      * by rewrite Hv, Ht, Hc.
  - intros [Hno|[sv Hsv%ensure_req_semver_normalized]].
    + by apply fullfills_early_return.
    + destruct (decide (reaches_semver pv spec)) as [Hreach|Hno];
        [|by apply fullfills_early_return].
      rewrite fullfills_semver_path, Hsv by done.
      destruct (Spec_parse spec) as [r|]; [destruct (Spec_contains r sv)|]; eauto.
Qed.

End FullfillsSemver.

(** The witness of C2: the tag v1.2.3 tracked by version, against a range
    that holds it, a range that does not, and a text that is no range. *)
Lemma fullfills_semver_range_witness :
  @PackageVersion.fullfills_result Reference.numeric_semver Reference.strip_v_util
    (PackageVersion.init (Some "version") (Some "v1.2.3")) ">=1.0.0,<2.0.0"
  = Ok ("", true)
  ∧ @PackageVersion.fullfills_result Reference.numeric_semver Reference.strip_v_util
      (PackageVersion.init (Some "version") (Some "v1.2.3")) ">=2.0.0"
    = Ok ("v1.2.3 not in >=2.0.0", false)
  ∧ @PackageVersion.fullfills_result Reference.numeric_semver Reference.strip_v_util
      (PackageVersion.init (Some "builtin") (Some "v1.2.3")) "not-a-spec"
    = Ok ("invalid semver spec: " +:+ dquote +:+ "not-a-spec" +:+ dquote, false).
Proof.
  assert (∀ m, @normalized Reference.numeric_semver Reference.strip_v_util
                 (PackageVersion.init m (Some "v1.2.3")) (1, 2, 3)%nat) as Hsv.
  { intros m. right. split; [reflexivity|].
    exists "v1.2.3". split; [reflexivity|]. split; [discriminate|reflexivity]. }
  split; [|split].
  - exact (@fullfills_semver_range Reference.numeric_semver Reference.strip_v_util
             (PackageVersion.init (Some "version") (Some "v1.2.3"))
             ">=1.0.0,<2.0.0" (1, 2, 3)%nat
             (or_introl eq_refl) ltac:(discriminate) eq_refl (Hsv _)).
  - exact (@fullfills_semver_range Reference.numeric_semver Reference.strip_v_util
             (PackageVersion.init (Some "version") (Some "v1.2.3"))
             ">=2.0.0" (1, 2, 3)%nat
             (or_introl eq_refl) ltac:(discriminate) eq_refl (Hsv _)).
  - exact (@fullfills_semver_range Reference.numeric_semver Reference.strip_v_util
             (PackageVersion.init (Some "builtin") (Some "v1.2.3"))
             "not-a-spec" (1, 2, 3)%nat
             (or_intror eq_refl) ltac:(discriminate) eq_refl (Hsv _)).
Defined.

(** C2, as stated, fails.  A version-tracked PackageVersion with an empty
    version raises AssertionError on a spec that does not parse, where a
    (message, false) pair is claimed; and with a version, the message holds
    the spec between double quotes, which the claimed text does not. *)
Lemma fullfills_invalid_spec_empty_version :
  @PackageVersion.fullfills_result Reference.numeric_semver Reference.strip_v_util
    (PackageVersion.init (Some "version") (Some EmptyString)) "not-a-spec"
  = Raise AssertionError
  ∧ @Spec_parse Reference.numeric_semver "not-a-spec" = None
  ∧ @PackageVersion.fullfills_result Reference.numeric_semver Reference.strip_v_util
      (PackageVersion.init (Some "version") (Some "v1.2.3")) "not-a-spec"
    ≠ Ok ("invalid semver spec: not-a-spec", false).
Proof. split; [reflexivity|]. split; [reflexivity|]. discriminate. Qed.

(** The witness of C3: a version-tracked PackageVersion without a version
    raises AssertionError on a range, one whose tag has no number raises the
    ValueError of the coercion, and one with a proper tag returns a pair on a
    spec that does not parse. *)
Lemma fullfills_raises_iff_witness :
  @PackageVersion.fullfills_result Reference.numeric_semver Reference.strip_v_util
    (PackageVersion.init (Some "version") None) ">=1.0.0"
  = Raise AssertionError
  ∧ @PackageVersion.fullfills_result Reference.numeric_semver Reference.strip_v_util
      (PackageVersion.init (Some "version") (Some "main")) ">=1.0.0"
    = Raise ValueError
  ∧ ∃ msg ok,
      @PackageVersion.fullfills_result Reference.numeric_semver Reference.strip_v_util
        (PackageVersion.init (Some "version") (Some "v1.2.3")) "not-a-spec"
      = Ok (msg, ok).
Proof.
  split; [|split].
  - apply (proj1 (@fullfills_raises_iff Reference.numeric_semver
                    Reference.strip_v_util
                    (PackageVersion.init (Some "version") None) ">=1.0.0")).
    split; [by repeat split|]. split; [reflexivity|]. by left.
  - apply (proj1 (@fullfills_raises_iff Reference.numeric_semver
                    Reference.strip_v_util
                    (PackageVersion.init (Some "version") (Some "main")) ">=1.0.0")).
    split; [by repeat split|]. split; [reflexivity|].
    right. by exists "main".
  - apply (proj2 (@fullfills_raises_iff Reference.numeric_semver
                    Reference.strip_v_util
                    (PackageVersion.init (Some "version") (Some "v1.2.3"))
                    "not-a-spec")).
    right. exists (1, 2, 3)%nat. right. split; [reflexivity|].
    by exists "v1.2.3".
Defined.

(** C3, as stated, fails: fullfills is not total.  With the version absent,
    and with the version empty, a version-tracked PackageVersion raises
    AssertionError on a range. *)
Lemma fullfills_absent_version_raises :
  @PackageVersion.fullfills_result Reference.numeric_semver Reference.strip_v_util
    (PackageVersion.init (Some "version") None) ">=1.0.0"
  = Raise AssertionError
  ∧ @PackageVersion.fullfills_result Reference.numeric_semver Reference.strip_v_util
      (PackageVersion.init (Some "version") (Some EmptyString)) ">=1.0.0"
    = Raise AssertionError.
Proof. split; reflexivity. Qed.

(** ** PackageInfo.best_version *)

Section BestVersion.

Import PackageInfo.

(** C10: with a non-empty version list best_version returns its last
    element, whatever the default branch; with an empty list it raises
    AssertionError when the default branch is absent or empty and returns
    the default branch otherwise. *)
Theorem best_version_cases (info : PackageInfo.t) :
  (∀ vs v, versions info = vs ++ [v] → best_version info = Ok v)
  ∧ (versions info = [] → truthy_opt (default_branch info) = false →
     best_version info = Raise AssertionError)
  ∧ (versions info = [] →
     ∀ b, default_branch info = Some b → b ≠ EmptyString →
          best_version info = Ok b).
Proof.
  unfold best_version. split; [|split].
  - intros vs v ->. rewrite getitem_last. by destruct vs.
  - intros -> Hb. simpl. destruct (default_branch info) as [b|]; [|done].
    simpl in Hb. by rewrite Hb.
  - intros -> b -> Hb. simpl. by destruct b.
Qed.

(** The result never looks at the default branch once a version is known. *)
Lemma best_version_ignores_default_branch (info info' : PackageInfo.t) :
  versions info = versions info' → versions info ≠ [] →
  best_version info = best_version info'.
Proof.
  unfold best_version. intros <- Hne. by destruct (versions info).
Qed.

End BestVersion.

(** The witness of C10: three version tags with no default branch, no tag
    and no default branch, and no tag with the default branch main. *)
Lemma best_version_cases_witness :
  PackageInfo.best_version (Sample.info ["v1.0.0"; "v1.1.0"; "v2.0.0"] None)
  = Ok "v2.0.0"
  ∧ PackageInfo.best_version (Sample.info [] None) = Raise AssertionError
  ∧ PackageInfo.best_version (Sample.info [] (Some "main")) = Ok "main".
Proof.
  split; [|split].
  - exact (proj1 (best_version_cases
                    (Sample.info ["v1.0.0"; "v1.1.0"; "v2.0.0"] None))
             ["v1.0.0"; "v1.1.0"] "v2.0.0" eq_refl).
  - exact (proj1 (proj2 (best_version_cases (Sample.info [] None)))
             eq_refl eq_refl).
  - refine (proj2 (proj2 (best_version_cases (Sample.info [] (Some "main"))))
              eq_refl "main" eq_refl _).
    discriminate.
Defined.

(** ** Package construction *)

Section PackageInit.
Context `{OsPath}.

(** name_from_path never raises: it is the last component of the canonical
    locator. *)
Lemma name_from_path_last (path : string) :
  ∃ n, name_from_path path = Ok n
       ∧ last (split "/" (canonical_url path)) = Some n.
Proof.
  unfold name_from_path.
  destruct (split "/" (canonical_url path)) as [|x l _] eqn:Hs using rev_ind.
  - by apply split_nonempty in Hs.
  - exists x. by rewrite getitem_last, last_snoc.
Qed.

(** C4, as amended: the constructor always returns a Package; built with
    canonical=false its name is name_from_path(git_url) whether or not a name
    is supplied, and a supplied non-empty name is kept only when canonical is
    true (the name stays unset when none is supplied then). *)
Theorem init_name (git_url0 source0 directory0 : string)
    (metadata0 : option (gmap string string)) (name0 : option string)
    (canonical : bool) :
  ∃ p n,
    Package.init git_url0 source0 directory0 metadata0 name0 canonical = Ok p
    ∧ name_from_path git_url0 = Ok n
    ∧ Package.name p
      = if canonical then (if truthy_opt name0 then name0 else None)
        else Some n.
Proof.
  destruct (name_from_path_last git_url0) as (n & Hn & _).
  unfold Package.init. destruct canonical; simpl.
  - eexists _, n. split; [done|]. split; [done|].
    by destruct (truthy_opt name0).
  - rewrite Hn. simpl. eexists _, n. by repeat split.
Qed.

End PackageInit.

(** C4, as stated, fails: a Package built from a URL ending in foo with the
    name bar supplied and canonical=false is named foo. *)
Lemma init_discards_supplied_name :
  Package.name
    <$> @Package.init Reference.no_files "https://example.com/org/foo"
          "" "" None (Some "bar") false
  = Ok (Some "foo").
Proof. reflexivity. Qed.

(** The example of the specification: the trailing slash goes and the name
    is the last component of the URL. *)
Example init_example :
  (λ p, (Package.git_url p, Package.name p))
    <$> @Package.init Reference.no_files "https://example.com/org/foo/"
          "" "" None None false
  = Ok ("https://example.com/org/foo", Some "foo").
Proof. reflexivity. Qed.

(** ** Package.matches_path *)

Section MatchesPath.

Lemma enumerate_from_snoc {A} (i : Z) (l : list A) (x : A) :
  enumerate_from i (l ++ [x]) = enumerate_from i l ++ [(i + len l, x)].
Proof.
  revert i. induction l as [|y l IH]; intros i; simpl.
  - unfold len. simpl. by rewrite Z.add_0_r.
  - rewrite IH. unfold len. simpl length. do 3 f_equal. f_equal. lia.
Qed.

(** The loop of [matches_path] walks the two component lists from their
    ends; [d] components of the qualified name are already consumed. *)
Lemma matches_parts_reversed (P Q : list string) (d : nat) :
  Package.matches_parts (len P + Z.of_nat d) Q (reverse (enumerate P))
  = match_reversed (reverse P) (drop d (reverse Q)).
Proof.
  revert d. induction P as [|x P IH] using rev_ind; intros d; [done|].
  unfold enumerate. rewrite enumerate_from_snoc, !reverse_snoc.
  cbn [Package.matches_parts match_reversed].
  replace (0 + len P - (len (P ++ [x]) + Z.of_nat d)) with (-1 - Z.of_nat d)
    by (unfold len; rewrite length_app; simpl; lia).
  rewrite getitem_neg.
  replace (len (P ++ [x]) + Z.of_nat d) with (len P + Z.of_nat (S d))
    by (unfold len; rewrite length_app; simpl; lia).
  destruct (reverse Q !! d) as [y|] eqn:Hd.
  - rewrite (drop_S _ _ _ Hd). simpl. case_bool_decide; [done|]. apply IH.
  - by rewrite drop_ge by by apply lookup_ge_None.
Qed.

Lemma match_reversed_true (rp rq : list string) :
  match_reversed rp rq = Ok true ↔ rp `prefix_of` rq.
Proof.
  revert rq. induction rp as [|x rp IH]; intros rq; simpl.
  - split; [intros _; apply prefix_nil|done].
  - destruct rq as [|y rq].
    + split; [done|]. by intros ?%prefix_nil_not.
    + case_bool_decide as Hxy.
      * split; [done|]. by intros ?%prefix_cons_inv_1.
      * subst y. rewrite IH.
        split; [apply prefix_cons|apply prefix_cons_inv_2].
Qed.

(** The loop raises exactly when the path has more components than the
    qualified name and ends with all of them. *)
Lemma match_reversed_raises (rp rq : list string) (e : exn) :
  match_reversed rp rq = Raise e ↔
  e = IndexError ∧ rq `prefix_of` rp ∧ (length rq < length rp)%nat.
Proof.
  revert rq. induction rp as [|x rp IH]; intros rq; simpl.
  - split; [done|]. intros (_ & _ & ?). lia.
  - destruct rq as [|y rq].
    + split; [intros [= <-]|by intros [-> _]].
      split; [done|]. split; [apply prefix_nil|simpl; lia].
    + case_bool_decide as Hxy.
      * split; [done|]. intros (_ & Hp%prefix_cons_inv_1 & _). by subst.
      * subst y. rewrite IH. simpl.
        split; intros (-> & Hp & Hl); (split; [done|split; [|lia]]).
        -- by apply prefix_cons.
        -- by apply prefix_cons_inv_2 in Hp.
Qed.

Lemma matches_path_with_source (p : Package.t) (path qn : string) :
  Package.source p ≠ EmptyString →
  Package.qualified_name p = Ok qn →
  Package.matches_path p path
  = match_reversed (reverse (split "/" path)) (reverse (split "/" qn)).
Proof.
  intros Hsrc%truthy_nonempty Hqn. unfold Package.matches_path.
  rewrite Hsrc, Hqn. simpl.
  pose proof (matches_parts_reversed (split "/" path) (split "/" qn) 0) as Hm.
  by rewrite Z.add_0_r in Hm.
Qed.

Lemma qualified_name_with_source (p : Package.t) (n : string) :
  Package.source p ≠ EmptyString →
  Package.name p = Some n →
  Package.qualified_name p
  = Ok (Package.source p +:+ "/"
        +:+ (if truthy (Package.directory p)
             then Package.directory p +:+ "/" +:+ n else n)).
Proof.
  intros Hsrc%truthy_nonempty Hn.
  unfold Package.qualified_name, Package.name_with_source_directory,
    Package.get_name.
  rewrite Hsrc, Hn. by destruct (truthy (Package.directory p)).
Qed.

(** C5, as amended: for a Package whose name is set.  In a source,
    matches_path returns true exactly when the components of the path are a
    suffix of the components of the qualified name, and returns false on
    every other path that has no more components than the qualified name.
    Outside any source it always returns: true exactly when the path is the
    package name, in one component, or is the git_url, and false otherwise. *)
Theorem matches_path_suffix (p : Package.t) (n path : string) :
  Package.name p = Some n →
  (Package.source p ≠ EmptyString →
   ∃ qn, Package.qualified_name p = Ok qn
         ∧ (Package.matches_path p path = Ok true
            ↔ split "/" path `suffix_of` split "/" qn)
         ∧ ((length (split "/" path) ≤ length (split "/" qn))%nat →
            ¬ split "/" path `suffix_of` split "/" qn →
            Package.matches_path p path = Ok false))
  ∧ (Package.source p = EmptyString →
     (Package.matches_path p path = Ok true
      ↔ (path = n ∧ length (split "/" path) = 1%nat)
        ∨ path = Package.git_url p)
     ∧ (Package.matches_path p path = Ok false
        ↔ ¬ ((path = n ∧ length (split "/" path) = 1%nat)
             ∨ path = Package.git_url p))).
Proof.
  intros Hn. split.
  - intros Hsrc. eexists. split; [by apply qualified_name_with_source|].
    rewrite (matches_path_with_source p path _ Hsrc
               (qualified_name_with_source p n Hsrc Hn)).
    split; [by rewrite match_reversed_true, suffix_prefix_reverse|].
    intros Hlen Hsuf.
    destruct (match_reversed (reverse (split "/" path)) (reverse (split "/" _)))
      as [[|]|e] eqn:Hm; [|done|].
    + destruct Hsuf. by apply suffix_prefix_reverse, match_reversed_true.
    + apply match_reversed_raises in Hm as (_ & _ & Hlt).
      rewrite !length_reverse in Hlt. lia.
  - intros Hsrc.
    assert (∃ b, Package.matches_path p path = Ok b
                 ∧ (b = true ↔ (path = n ∧ length (split "/" path) = 1%nat)
                               ∨ path = Package.git_url p)) as (b & -> & Hb).
    { unfold Package.matches_path, Package.get_name.
      rewrite Hsrc, Hn. simpl.
      destruct (bool_decide_reflect (len (split "/" path) = 1)) as [Hlen|Hlen].
      + assert (length (split "/" path) = 1%nat) as Hone
          by (unfold len in Hlen; lia).
        rewrite (split_single _ _ Hone). change [path] with ([] ++ [path]).
        rewrite getitem_last. simpl.
        destruct (bool_decide_reflect (path = n)) as [Hpn|Hpn]; simpl.
        * eexists. split; [done|]. split; [by left|done].
        * destruct (bool_decide_reflect (path = Package.git_url p)) as [Hg|Hg];
            (eexists; split; [done|]).
          -- split; [by right|done].
          -- split; [done|by intros [[? _]|?]].
      + simpl.
        destruct (bool_decide_reflect (path = Package.git_url p)) as [Hg|Hg];
          (eexists; split; [done|]).
        * split; [by right|done].
        * split; [done|]. intros [[_ Hone]|?]; [|done].
          unfold len in Hlen. lia. }
    split.
    + rewrite <-Hb. split; [by intros [= ->]|by intros ->].
    + rewrite <-Hb. split; [intros [= ->]; done|by destruct b].
Qed.

(** With a source, a path longer than the qualified name that ends with all
    its components is not answered with false: the loop indexes past the
    front of the list and IndexError escapes. *)
Lemma matches_path_index_error (p : Package.t) (path qn : string) (e : exn) :
  Package.source p ≠ EmptyString →
  Package.qualified_name p = Ok qn →
  Package.matches_path p path = Raise e ↔
  e = IndexError
  ∧ split "/" qn `suffix_of` split "/" path
  ∧ (length (split "/" qn) < length (split "/" path))%nat.
Proof.
  intros Hsrc Hqn. rewrite (matches_path_with_source p path qn Hsrc Hqn).
  by rewrite match_reversed_raises, suffix_prefix_reverse, !length_reverse.
Qed.

End MatchesPath.

(** The witness of C5: alice/foo and bob/foo against the package
    src/alice/foo, and the name foo against a package outside any source. *)
Lemma matches_path_suffix_witness :
  Package.matches_path Sample.alice_foo "alice/foo" = Ok true
  ∧ Package.matches_path Sample.alice_foo "bob/foo" = Ok false
  ∧ Package.matches_path Sample.direct_foo "foo" = Ok true
  ∧ Package.matches_path Sample.direct_foo "org/foo" = Ok false.
Proof.
  destruct (proj1 (matches_path_suffix Sample.alice_foo "foo" "alice/foo" eq_refl))
    as (qn & Hqn & Htrue & _); [discriminate|].
  destruct (proj1 (matches_path_suffix Sample.alice_foo "foo" "bob/foo" eq_refl))
    as (qn' & Hqn' & _ & Hfalse); [discriminate|].
  assert (qn = "src/alice/foo") as -> by (vm_compute in Hqn; congruence).
  assert (qn' = "src/alice/foo") as -> by (vm_compute in Hqn'; congruence).
  split; [|split; [|split]].
  - apply Htrue. by exists ["src"].
  - apply Hfalse; [simpl; lia|]. intros [k Hk].
    pose proof (f_equal length Hk) as Hlen. rewrite length_app in Hlen.
    change (length (split "/" "src/alice/foo")) with 3%nat in Hlen.
    change (length (split "/" "bob/foo")) with 2%nat in Hlen.
    destruct k as [|a [|b k]]; simpl in Hlen; [lia| |lia].
    vm_compute in Hk. congruence.
  - apply (proj2 (matches_path_suffix Sample.direct_foo "foo" "foo" eq_refl));
      [reflexivity|]. by left.
  - apply (proj2 (matches_path_suffix Sample.direct_foo "foo" "org/foo" eq_refl));
      [reflexivity|]. intros [[[=] _]|[=]].
Defined.

(** C5, as stated, fails: built with canonical=true and no name, the
    Package of git_url foo, outside any source, has no name attribute;
    matches_path of foo, which is exactly its git_url, reads the name and
    raises AttributeError where true is claimed. *)
Lemma matches_path_unnamed_package :
  (λ p, (Package.source p, Package.git_url p, Package.name p,
         Package.matches_path p "foo"))
    <$> @Package.init Reference.no_files "foo" "" "" None None true
  = Ok (EmptyString, "foo", None, Raise AttributeError).
Proof. reflexivity. Qed.

(** The examples of the specification, for the qualified name src/alice/foo,
    and a path that runs past the front of the qualified name. *)
Example matches_path_examples :
  Package.qualified_name Sample.alice_foo = Ok "src/alice/foo"
  ∧ Package.matches_path Sample.alice_foo "foo" = Ok true
  ∧ Package.matches_path Sample.alice_foo "alice/foo" = Ok true
  ∧ Package.matches_path Sample.alice_foo "src/alice/foo" = Ok true
  ∧ Package.matches_path Sample.alice_foo "bob/foo" = Ok false
  ∧ Package.matches_path Sample.alice_foo "zeek/src/alice/foo" = Raise IndexError.
Proof. repeat split. Qed.

(** ** Identity of Package and InstalledPackage *)

Section IdentityFacts.
Context `{PyHash}.

(** The comparisons derived by total_ordering, on two values whose [__lt__]
    and [__eq__] return. *)
Lemma derived_comparisons (lt eq : bool) :
  le_from_lt (Ok lt) (Ok eq) = Ok (lt || eq)
  ∧ gt_from_lt (Ok lt) (Ok eq) = Ok (negb lt && negb eq)
  ∧ ge_from_lt (Ok lt) = Ok (negb lt).
Proof. by destruct lt, eq. Qed.

(** C8: str(p) is p.qualified_name(), which is source/directory/name (the
    directory left out when empty) for a package in a source and the
    git_url otherwise; two Packages are equal exactly when these strings
    are equal, and are ordered as these strings are, lexicographically,
    whatever their other attributes. *)
Theorem package_identity_by_qualified_name (p q : Package.t) (sp sq : string) :
  Package.qualified_name p = Ok sp →
  Package.qualified_name q = Ok sq →
  Package.str p = Package.qualified_name p
  ∧ (Package.source p ≠ EmptyString →
     ∀ n, Package.name p = Some n →
          sp = Package.source p +:+ "/"
               +:+ (if truthy (Package.directory p)
                    then Package.directory p +:+ "/" +:+ n else n))
  ∧ (Package.source p = EmptyString → sp = Package.git_url p)
  ∧ (Package.eq p (Package.PackageObject q) = Ok true ↔ sp = sq)
  ∧ (Package.eq p (Package.PackageObject q) = Ok false ↔ sp ≠ sq)
  ∧ (Package.lt p (Package.PackageObject q) = Ok true ↔ lex_lt sp sq)
  ∧ (Package.lt p (Package.PackageObject q) = Ok false ↔ ¬ lex_lt sp sq)
  ∧ (sp = sq → Package.hash_ p = Package.hash_ q).
Proof.
  intros Hp Hq. split; [done|]. split; [|split].
  - intros Hsrc n Hn. rewrite (qualified_name_with_source p n Hsrc Hn) in Hp.
    by simplify_eq.
  - intros Hsrc. unfold Package.qualified_name in Hp. rewrite Hsrc in Hp.
    simpl in Hp. by simplify_eq.
  - unfold Package.eq, Package.lt, Package.hash_, Package.str_object, Package.str.
    rewrite Hp, Hq. simpl. rewrite <-str_lt_lex.
    destruct (bool_decide_reflect (sp = sq)) as [He|He];
      destruct (str_lt sp sq); naive_solver.
Qed.

(** C9: two InstalledPackages are equal exactly when the strings of their
    packages are equal, are ordered as these strings are, and hash alike
    when the strings are equal; the status takes no part, so any two
    statuses can be put in place of theirs without changing an answer. *)
Theorem installed_package_identity_by_package_str
    (a b : InstalledPackage.t) (sa sb : string) :
  Package.str (InstalledPackage.package a) = Ok sa →
  Package.str (InstalledPackage.package b) = Ok sb →
  (InstalledPackage.eq a (InstalledPackage.InstalledPackageObject b) = Ok true
   ↔ sa = sb)
  ∧ InstalledPackage.eq a (InstalledPackage.InstalledPackageObject b)
    = Ok (bool_decide (sa = sb))
  ∧ InstalledPackage.lt a (InstalledPackage.InstalledPackageObject b)
    = Ok (str_lt sa sb)
  ∧ InstalledPackage.le a (InstalledPackage.InstalledPackageObject b)
    = Ok (str_lt sa sb || bool_decide (sa = sb))
  ∧ InstalledPackage.gt a (InstalledPackage.InstalledPackageObject b)
    = Ok (negb (str_lt sa sb) && negb (bool_decide (sa = sb)))
  ∧ InstalledPackage.ge a (InstalledPackage.InstalledPackageObject b)
    = Ok (negb (str_lt sa sb))
  ∧ (sa = sb → InstalledPackage.hash_ a = InstalledPackage.hash_ b)
  ∧ (∀ st st' : PackageStatus.t,
       let a' := {| InstalledPackage.package := InstalledPackage.package a;
                    InstalledPackage.status := st |} in
       let b' := {| InstalledPackage.package := InstalledPackage.package b;
                    InstalledPackage.status := st' |} in
       InstalledPackage.eq a' (InstalledPackage.InstalledPackageObject b')
       = InstalledPackage.eq a (InstalledPackage.InstalledPackageObject b)
       ∧ InstalledPackage.lt a' (InstalledPackage.InstalledPackageObject b')
         = InstalledPackage.lt a (InstalledPackage.InstalledPackageObject b)
       ∧ InstalledPackage.hash_ a' = InstalledPackage.hash_ a).
Proof.
  intros Ha Hb.
  assert (InstalledPackage.eq a (InstalledPackage.InstalledPackageObject b)
          = Ok (bool_decide (sa = sb))) as Heq.
  { unfold InstalledPackage.eq. by rewrite Ha, Hb. }
  assert (InstalledPackage.lt a (InstalledPackage.InstalledPackageObject b)
          = Ok (str_lt sa sb)) as Hlt.
  { unfold InstalledPackage.lt, Package.lt. rewrite Hb. simpl. by rewrite Ha. }
  unfold InstalledPackage.le, InstalledPackage.gt, InstalledPackage.ge.
  rewrite Heq, Hlt.
  destruct (derived_comparisons (str_lt sa sb) (bool_decide (sa = sb)))
    as (-> & -> & ->).
  repeat split; try done.
  - intros [= ?%bool_decide_eq_true]. done.
  - intros ->. by rewrite bool_decide_true.
  - intros ->. unfold InstalledPackage.hash_. by rewrite Ha, Hb.
Qed.

End IdentityFacts.

(** The witness of C8: two separately built Packages that share source,
    directory and name and differ in git_url and metadata are equal, and
    src/alice/foo is ordered before src/bar. *)
Lemma package_identity_by_qualified_name_witness :
  Package.eq Sample.alice_foo (Package.PackageObject Sample.alice_foo_mirror)
  = Ok true
  ∧ Package.lt Sample.alice_foo (Package.PackageObject Sample.top_bar) = Ok true.
Proof.
  split.
  - pose proof (@package_identity_by_qualified_name Reference.length_hash
                  Sample.alice_foo Sample.alice_foo_mirror
                  "src/alice/foo" "src/alice/foo" eq_refl eq_refl)
      as (_ & _ & _ & Heq & _).
    by apply Heq.
  - pose proof (@package_identity_by_qualified_name Reference.length_hash
                  Sample.alice_foo Sample.top_bar
                  "src/alice/foo" "src/bar" eq_refl eq_refl)
      as (_ & _ & _ & _ & _ & Hlt & _).
    apply Hlt, str_lt_lex. reflexivity.
Defined.

(** The witness of C9: the same qualified name under two statuses that
    differ in every field. *)
Lemma installed_package_identity_by_package_str_witness :
  InstalledPackage.eq
    {| InstalledPackage.package := Sample.alice_foo;
       InstalledPackage.status := Sample.loaded_on_main |}
    (InstalledPackage.InstalledPackageObject
       {| InstalledPackage.package := Sample.alice_foo_mirror;
          InstalledPackage.status := Sample.pinned_release |})
  = Ok true
  ∧ @InstalledPackage.hash_ Reference.length_hash
      {| InstalledPackage.package := Sample.alice_foo;
         InstalledPackage.status := Sample.loaded_on_main |}
    = @InstalledPackage.hash_ Reference.length_hash
        {| InstalledPackage.package := Sample.alice_foo_mirror;
           InstalledPackage.status := Sample.pinned_release |}.
Proof.
  pose proof (@installed_package_identity_by_package_str Reference.length_hash
                {| InstalledPackage.package := Sample.alice_foo;
                   InstalledPackage.status := Sample.loaded_on_main |}
                {| InstalledPackage.package := Sample.alice_foo_mirror;
                   InstalledPackage.status := Sample.pinned_release |}
                "src/alice/foo" "src/alice/foo" eq_refl eq_refl)
    as (Heq & _ & _ & _ & _ & _ & Hhash & _).
  split; [by apply Heq|by apply Hhash].
Defined.

(** ** dependencies *)

Section Dependencies.

Lemma list_ind_pairs {A} (P : list A → Prop) :
  P [] → (∀ x, P [x]) → (∀ x y l, P l → P (x :: y :: l)) → ∀ l, P l.
Proof.
  intros Hnil Hone Hstep l.
  assert (P l ∧ ∀ x, P (x :: l)) as [Hl _]; [|done].
  induction l as [|y l [IH1 IH2]]; [done|]. split; [apply IH2|].
  intros x. by apply Hstep.
Qed.

Lemma every_other_lookup {A} (l : list A) (i : nat) :
  every_other l !! i = l !! (2 * i)%nat.
Proof.
  revert l. induction i as [|i IH]; intros [|x [|y l]]; try done.
  simpl. rewrite IH. by replace (i + S (i + 0))%nat with (S (2 * i)) by lia.
Qed.

Lemma every_other_from_1_lookup {A} (l : list A) (i : nat) :
  every_other_from_1 l !! i = l !! (2 * i + 1)%nat.
Proof.
  unfold every_other_from_1. rewrite every_other_lookup, lookup_tail.
  f_equal. lia.
Qed.

Lemma every_other_length {A} (l : list A) :
  length (every_other l) = Nat.div2 (S (length l)).
Proof.
  induction l as [| |x y l IH] using list_ind_pairs; [done..|].
  simpl in *. by rewrite IH.
Qed.

Lemma every_other_from_1_length {A} (l : list A) :
  length (every_other_from_1 l) = Nat.div2 (length l).
Proof.
  unfold every_other_from_1. destruct l as [|x l]; [done|].
  simpl. apply every_other_length.
Qed.

Lemma div2_succ_even (n : nat) :
  Nat.div2 (S n) = Nat.div2 n ↔ Nat.even n = true.
Proof.
  assert ((Nat.div2 (S n) = Nat.div2 n ↔ Nat.even n = true)
          ∧ (Nat.div2 (S (S n)) = Nat.div2 (S n) ↔ Nat.even (S n) = true))
    as [Hn _]; [|done].
  induction n as [|n [IH1 IH2]]; [by split|]. split; [done|].
  change (Nat.even (S (S n))) with (Nat.even n).
  change (Nat.div2 (S (S (S n)))) with (S (Nat.div2 (S n))).
  change (Nat.div2 (S (S n))) with (S (Nat.div2 n)).
  rewrite <-IH1. split; [by intros [=]|by intros ->].
Qed.

(** Keys and values are equally many exactly when the tokens are evenly many. *)
Lemma keys_values_balanced {A} (tokens : list A) :
  len (every_other tokens) = len (every_other_from_1 tokens)
  ↔ Nat.even (length tokens) = true.
Proof.
  unfold len. rewrite every_other_length, every_other_from_1_length.
  rewrite <-div2_succ_even. lia.
Qed.

(** With as many values as keys the loop never raises: it stores the pairs
    in order, a later pair over an earlier one with the same key. *)
Lemma dependencies_loop (values ks : list string) (i : nat)
    (m : gmap string string) :
  (i + length ks ≤ length values)%nat →
  for_each (store_pair values) m (enumerate_from (Z.of_nat i) ks)
  = Ok (foldl (λ m kv, <[kv.1:=kv.2]> m) m (zip ks (drop i values))).
Proof.
  revert i m. induction ks as [|k ks IH]; intros i m Hlen; [done|].
  simpl in Hlen. cbn [enumerate_from for_each store_pair].
  destruct (lookup_lt_is_Some_2 values i) as [v Hv]; [lia|].
  rewrite (proj2 (Z.ltb_lt _ _)) by (unfold len; lia).
  rewrite (getitem_nat _ _ _ Hv). simpl.
  replace (Z.of_nat i + 1) with (Z.of_nat (S i)) by lia.
  rewrite IH by lia. by rewrite (drop_S _ _ _ Hv).
Qed.

(** What a sequence of stores leaves at a key: the value of its last pair. *)
Lemma stores_lookup (l : list (string * string)) (k v : string) :
  foldl (λ m kv, <[kv.1:=kv.2]> m) (∅ : gmap string string) l !! k = Some v
  ↔ ∃ i, l !! i = Some (k, v)
         ∧ ∀ j v', (i < j)%nat → l !! j ≠ Some (k, v').
Proof.
  induction l as [|[k0 v0] l IH] using rev_ind.
  { simpl. rewrite lookup_empty. split; [done|]. by intros (i & ? & _). }
  rewrite foldl_snoc. simpl. destruct (decide (k0 = k)) as [->|Hk].
  - rewrite lookup_insert_eq. split.
    + intros [= ->]. exists (length l). split.
      * by rewrite lookup_app_r, Nat.sub_diag by lia.
      * intros j v' Hj. rewrite lookup_ge_None_2; [done|].
        rewrite length_app. simpl. lia.
    + intros (i & Hi & Hlast).
      destruct (decide (i < length l)%nat) as [Hlt|Hge].
      * destruct (Hlast (length l) v0 Hlt).
        by rewrite lookup_app_r, Nat.sub_diag by lia.
      * apply lookup_snoc_Some in Hi as [[Hlt _]|[_ [=]]]; [lia|]. by subst.
  - rewrite lookup_insert_ne by done. rewrite IH. split.
    + intros (i & Hi & Hlast). exists i. split; [by apply lookup_app_l_Some|].
      intros j v' Hj [[_ Hin]|[_ [=]]]%lookup_snoc_Some; [|done].
      by apply (Hlast j v' Hj).
    + intros (i & [[_ Hi]|[_ [=]]]%lookup_snoc_Some & Hlast); [|done].
      exists i. split; [done|]. intros j v' Hj Hin.
      apply (Hlast j v' Hj). by apply lookup_app_l_Some.
Qed.

(** An absent field: the empty map. *)
Lemma dependencies_absent (metadata_dict : gmap string string) (field : string) :
  metadata_dict !! field = None →
  dependencies metadata_dict field = Ok (Some ∅).
Proof. unfold dependencies. by intros ->. Qed.

(** Oddly many tokens: None. *)
Lemma dependencies_odd (metadata_dict : gmap string string)
    (field depends : string) :
  metadata_dict !! field = Some depends →
  Nat.odd (length (split_ws depends)) = true →
  dependencies metadata_dict field = Ok None.
Proof.
  unfold dependencies. intros -> Hodd. rewrite bool_decide_false; [done|].
  rewrite keys_values_balanced. by rewrite <-Nat.negb_odd, Hodd.
Qed.

(** Evenly many tokens: the pairs, stored in order. *)
Lemma dependencies_even (metadata_dict : gmap string string)
    (field depends : string) :
  metadata_dict !! field = Some depends →
  Nat.even (length (split_ws depends)) = true →
  ∃ rval, dependencies metadata_dict field = Ok (Some rval)
          ∧ ∀ k v, rval !! k = Some v ↔
              ∃ i, split_ws depends !! (2 * i)%nat = Some k
                   ∧ split_ws depends !! (2 * i + 1)%nat = Some v
                   ∧ ∀ j, (i < j)%nat →
                          split_ws depends !! (2 * j)%nat ≠ Some k.
Proof.
  unfold dependencies. intros ->. set (tokens := split_ws depends). intros Heven.
  pose proof (keys_values_balanced tokens) as Hbal.
  rewrite bool_decide_true by by apply Hbal. simpl.
  unfold enumerate. change 0 with (Z.of_nat 0).
  rewrite dependencies_loop
    by (apply Hbal in Heven; unfold len in Heven; simpl; lia).
  simpl. eexists. split; [done|]. intros k v. rewrite stores_lookup.
  assert (∀ i k v, zip (every_other tokens) (every_other_from_1 tokens) !! i
                   = Some (k, v)
                   ↔ tokens !! (2 * i)%nat = Some k
                     ∧ tokens !! (2 * i + 1)%nat = Some v) as Hpair.
  { intros i k' v'.
    by rewrite lookup_zip_Some, every_other_lookup, every_other_from_1_lookup. }
  split.
  - intros (i & (Hk & Hv)%Hpair & Hlast). exists i. split; [done|].
    split; [done|]. intros j Hj Hkj.
    destruct (lookup_lt_is_Some_2 tokens (2 * j + 1)) as [v' Hv'].
    { apply lookup_lt_Some in Hkj. apply Nat.even_spec in Heven as [h Hh]. lia. }
    apply (Hlast j v' Hj), Hpair. done.
  - intros (i & Hk & Hv & Hlast). exists i. split; [by apply Hpair|].
    intros j v' Hj [Hkj _]%Hpair. by apply (Hlast j).
Qed.

(** C7, as amended: an absent field gives the empty map; an odd number of
    tokens gives None, never a partial map; an even number of tokens gives a
    map whose keys are the even-indexed tokens, each mapped to the token that
    follows its last even-indexed occurrence (a name given more than once
    keeps the requirement of its last pair). *)
Theorem dependencies_cases (metadata_dict : gmap string string) (field : string) :
  (metadata_dict !! field = None →
   dependencies metadata_dict field = Ok (Some ∅))
  ∧ (∀ depends, metadata_dict !! field = Some depends →
       (Nat.odd (length (split_ws depends)) = true →
        dependencies metadata_dict field = Ok None)
       ∧ (Nat.even (length (split_ws depends)) = true →
          ∃ rval, dependencies metadata_dict field = Ok (Some rval)
                  ∧ ∀ k v, rval !! k = Some v ↔
                      ∃ i, split_ws depends !! (2 * i)%nat = Some k
                           ∧ split_ws depends !! (2 * i + 1)%nat = Some v
                           ∧ ∀ j, (i < j)%nat →
                                  split_ws depends !! (2 * j)%nat ≠ Some k)).
Proof.
  split; [apply dependencies_absent|]. intros depends Hf. split.
  - by apply dependencies_odd.
  - by apply dependencies_even.
Qed.

(** Where the keys are pairwise distinct, every even-indexed token is mapped
    to the token that follows it. *)
Lemma dependencies_distinct_keys (metadata_dict : gmap string string)
    (field depends : string) (i : nat) (k v : string) :
  metadata_dict !! field = Some depends →
  Nat.even (length (split_ws depends)) = true →
  NoDup (every_other (split_ws depends)) →
  split_ws depends !! (2 * i)%nat = Some k →
  split_ws depends !! (2 * i + 1)%nat = Some v →
  ∃ rval, dependencies metadata_dict field = Ok (Some rval) ∧ rval !! k = Some v.
Proof.
  intros Hf Heven Hnd Hk Hv.
  destruct (dependencies_even metadata_dict field depends Hf Heven)
    as (rval & Hr & Hlookup).
  exists rval. split; [done|]. apply Hlookup. exists i. split; [done|].
  split; [done|]. intros j Hj Hkj.
  rewrite <-every_other_lookup in Hk, Hkj.
  pose proof (NoDup_lookup _ _ _ _ Hnd Hk Hkj). lia.
Qed.

End Dependencies.

(** The witness of C7: no field, the single token zeek, and the two pairs
    of the specification's example. *)
Lemma dependencies_cases_witness :
  dependencies ∅ "depends" = Ok (Some ∅)
  ∧ dependencies {[ "depends" := "zeek" ]} "depends" = Ok None
  ∧ ∃ rval, dependencies {[ "depends" := "zeek >=4.0.0 foo *" ]} "depends"
            = Ok (Some rval)
            ∧ rval !! "zeek" = Some ">=4.0.0" ∧ rval !! "foo" = Some "*".
Proof.
  split; [|split].
  - exact (proj1 (dependencies_cases ∅ "depends") eq_refl).
  - exact (proj1 (proj2 (dependencies_cases {[ "depends" := "zeek" ]} "depends")
                    "zeek" (lookup_singleton_eq _ _)) eq_refl).
  - destruct (proj2 (proj2 (dependencies_cases
                              {[ "depends" := "zeek >=4.0.0 foo *" ]} "depends")
                       "zeek >=4.0.0 foo *" (lookup_singleton_eq _ _)) eq_refl)
      as (rval & Hr & Hlookup).
    exists rval. split; [exact Hr|]. split; apply Hlookup.
    + exists 0%nat. split; [reflexivity|]. split; [reflexivity|].
      intros [|[|j]] Hj; [lia|discriminate|].
      replace (2 * S (S j))%nat with (S (S (S (S (2 * j))))) by lia. discriminate.
    + exists 1%nat. split; [reflexivity|]. split; [reflexivity|].
      intros [|[|j]] Hj; [lia..|].
      replace (2 * S (S j))%nat with (S (S (S (S (2 * j))))) by lia. discriminate.
Defined.

(** The example of the specification, computed. *)
Example dependencies_example :
  dependencies {[ "depends" := "zeek >=4.0.0 foo *" ]} "depends"
  = Ok (Some {[ "zeek" := ">=4.0.0"; "foo" := "*" ]}).
Proof. vm_compute. reflexivity. Qed.

(** C7, as stated, fails: when a name is given twice the map holds the
    requirement of its last pair, so the first token [a] is not mapped to
    the token [1] that follows it. *)
Lemma dependencies_repeated_name :
  split_ws "a 1 a 2" = ["a"; "1"; "a"; "2"]
  ∧ dependencies {[ "depends" := "a 1 a 2" ]} "depends"
    = Ok (Some {[ "a" := "2" ]})
  ∧ ({[ "a" := "2" ]} : gmap string string) !! "a" ≠ Some "1".
Proof.
  split; [reflexivity|]. split; [vm_compute; reflexivity|].
  rewrite lookup_singleton_eq. discriminate.
Qed.

(** ** Packages that have a qualified name *)

Section QualifiedName.
Context `{OsPath}.

(** A package with a name, or outside any source, has a qualified name. *)
Lemma qualified_name_defined (p : Package.t) :
  Package.source p = EmptyString ∨ is_Some (Package.name p) →
  ∃ s, Package.qualified_name p = Ok s.
Proof.
  intros Hp. destruct (decide (Package.source p = EmptyString)) as [Hsrc|Hsrc].
  - unfold Package.qualified_name. rewrite Hsrc. simpl. eauto.
  - destruct Hp as [Hp|[n Hn]]; [done|].
    rewrite (qualified_name_with_source p n Hsrc Hn). eauto.
Qed.

(** So does every package built with canonical=false. *)
Lemma init_qualified_name (git_url0 source0 directory0 : string)
    (metadata0 : option (gmap string string)) (name0 : option string) :
  ∃ p s,
    Package.init git_url0 source0 directory0 metadata0 name0 false = Ok p
    ∧ Package.qualified_name p = Ok s.
Proof.
  destruct (name_from_path_last git_url0) as (n & Hn & _).
  unfold Package.init. simpl. rewrite Hn. simpl.
  edestruct qualified_name_defined as [s Hs]; [|by eexists _, s].
  right. by eexists.
Qed.

Lemma startswith_app (s t : string) : startswith (s +:+ t) s = true.
Proof.
  unfold startswith. induction s as [|a s IH]; [by destruct t|].
  rewrite app_cons. simpl. by destruct (ascii_dec a a).
Qed.

(** The builtin record: named as asked, in the builtin source, and its best
    version is the version it was built with. *)
Lemma make_builtin_package_best_version (name0 current_version0 : string)
    (current_hash0 : option string) :
  name0 ≠ EmptyString →
  ∃ info,
    make_builtin_package name0 current_version0 current_hash0 = Ok info
    ∧ Package.qualified_name (PackageInfo.package info)
      = Ok (BUILTIN_SOURCE +:+ "/" +:+ name0)
    ∧ Package.is_builtin (PackageInfo.package info) = true
    ∧ PackageInfo.best_version info = Ok current_version0.
Proof.
  intros Hname%truthy_nonempty. unfold make_builtin_package, Package.init.
  simpl. rewrite Hname. simpl. eexists. split; [done|].
  split; [done|]. split; [|done].
  unfold Package.is_builtin. simpl. apply startswith_app.
Qed.

End QualifiedName.

(** ** More on strings: components, white space, order *)

Section MoreStrings.

Lemma app_empty_r s : s +:+ EmptyString = s.
Proof. induction s as [|a s IH]; [done|]. by rewrite app_cons, IH. Qed.

Lemma contains_char_app c s t :
  contains_char c (s +:+ t) = contains_char c s || contains_char c t.
Proof.
  induction s as [|a s IH]; [done|].
  rewrite app_cons. simpl. rewrite IH. by destruct (bool_decide (a = c)).
Qed.

Lemma split_no_sep sep s : contains_char sep s = false → split sep s = [s].
Proof.
  induction s as [|a s IH]; [done|]. simpl.
  intros [Ha Hs]%orb_false_elim. rewrite Ha, (IH Hs). done.
Qed.

Lemma split_app_sep sep s t :
  split sep (s +:+ String sep t) = split sep s ++ split sep t.
Proof.
  induction s as [|a s IH].
  - rewrite app_empty_l. simpl. by rewrite bool_decide_true.
  - rewrite app_cons. simpl. rewrite IH.
    pose proof (split_nonempty sep s) as Hne.
    case_bool_decide; [done|]. by destruct (split sep s).
Qed.

Lemma split_components sep s w :
  w ∈ split sep s → contains_char sep w = false.
Proof.
  revert w. induction s as [|a s IH]; intros w; simpl.
  - by intros ->%list_elem_of_singleton.
  - pose proof (split_nonempty sep s) as Hne.
    destruct (bool_decide_reflect (a = sep)) as [Ha|Ha].
    + intros [->|Hin]%elem_of_cons; [done|by apply IH].
    + destruct (split sep s) as [|w' ws] eqn:Hs; [done|].
      intros [->|Hin]%elem_of_cons.
      * simpl. rewrite bool_decide_false by done. apply IH. by left.
      * apply IH. by right.
Qed.

Lemma split_join sep l :
  l ≠ [] → Forall (λ w, contains_char sep w = false) l →
  split sep (join sep l) = l.
Proof.
  intros Hne Hl. induction Hl as [|w l Hw Hl IH]; [done|].
  destruct l as [|w' l]; [by apply split_no_sep|].
  change (join sep (w :: w' :: l)) with (w +:+ String sep (join sep (w' :: l))).
  rewrite split_app_sep, IH by done. by rewrite split_no_sep.
Qed.

Lemma last_split_app_sep sep s n :
  contains_char sep n = false →
  last (split sep (s +:+ String sep n)) = Some n.
Proof.
  intros Hn. rewrite split_app_sep, (split_no_sep _ _ Hn). apply last_snoc.
Qed.

(** Two strings cut at their last separator are equal part by part. *)
Lemma app_sep_inj sep a a' n n' :
  contains_char sep n = false → contains_char sep n' = false →
  a +:+ String sep n = a' +:+ String sep n' → a = a' ∧ n = n'.
Proof.
  intros Hn Hn'. revert a'. induction a as [|c a IH]; intros [|c' a'].
  - rewrite !app_empty_l. by intros [=].
  - rewrite app_empty_l, app_cons. intros [= Hc Hn2]. exfalso.
    rewrite Hn2, contains_char_app in Hn. simpl in Hn.
    rewrite bool_decide_true in Hn by done. by destruct (contains_char sep a').
  - rewrite app_empty_l, app_cons. intros [= Hc Hn2]. exfalso.
    rewrite <-Hn2, contains_char_app in Hn'. simpl in Hn'.
    rewrite bool_decide_true in Hn' by done. by destruct (contains_char sep a).
  - rewrite !app_cons. intros [= -> Hrest].
    destruct (IH a' Hrest) as [-> ->]. done.
Qed.

Lemma lstrip_ws_head s : leading_ws (lstrip_ws s) = 0%nat.
Proof.
  induction s as [|a s IH]; [done|]. simpl.
  destruct (isspace a) eqn:Ha; [done|]. simpl. by rewrite Ha.
Qed.

Lemma lstrip_ws_id s : leading_ws s = 0%nat → lstrip_ws s = s.
Proof. destruct s as [|a s]; [done|]. simpl. by destruct (isspace a). Qed.

Lemma lstrip_ws_drop s : lstrip_ws s = drop_chars (leading_ws s) s.
Proof.
  induction s as [|a s IH]; [done|]. simpl. by destruct (isspace a).
Qed.

Lemma lstrip_ws_first s : first_is_space s = false → lstrip_ws s = s.
Proof. destruct s as [|a s]; [done|]. simpl. by intros ->. Qed.

Lemma rstrip_ws_id s : rstrip_ws s = s ↔ last_is_space s = false.
Proof.
  induction s as [|a s IH]; [done|]. simpl. destruct s as [|b s].
  - simpl. destruct (isspace a); (split; [by intros [=]|done]).
  - rewrite <-IH. destruct (rstrip_ws (String b s)) as [|c r] eqn:Hr.
    + split; [destruct (isspace a); by intros [=]|done].
    + split; by intros [= -> ->].
Qed.

Lemma rstrip_ws_length s : (String.length (rstrip_ws s) ≤ String.length s)%nat.
Proof.
  induction s as [|a s IH]; [done|]. simpl.
  destruct (rstrip_ws s); [destruct (isspace a)|]; simpl in *; lia.
Qed.

Lemma lstrip_ws_length s : (String.length (lstrip_ws s) ≤ String.length s)%nat.
Proof.
  induction s as [|a s IH]; [done|]. simpl.
  destruct (isspace a); simpl; lia.
Qed.

(** A string is its own [strip()] exactly when neither its first nor its
    last character is white space. *)
Lemma strip_ws_id s :
  s = strip_ws s ↔ first_is_space s = false ∧ last_is_space s = false.
Proof.
  unfold strip_ws. split.
  - intros Hs. assert (first_is_space s = false) as Hfirst.
    { destruct s as [|a s]; [done|]. simpl in *.
      destruct (isspace a) eqn:Ha; [|done]. exfalso.
      pose proof (rstrip_ws_length (lstrip_ws s)) as H1.
      pose proof (lstrip_ws_length s) as H2.
      rewrite <-Hs in H1. simpl in H1. lia. }
    split; [done|]. apply rstrip_ws_id.
    rewrite (lstrip_ws_first _ Hfirst) in Hs. done.
  - intros [Hfirst Hlast]. apply rstrip_ws_id in Hlast.
    by rewrite (lstrip_ws_first _ Hfirst).
Qed.

Lemma str_lt_trans s t u : str_lt s t = true → str_lt t u = true → str_lt s u = true.
Proof.
  rewrite !str_lt_ltb. unfold String.ltb.
  destruct (String.compare s t) eqn:Hst; try done.
  destruct (String.compare t u) eqn:Htu; try done. intros _ _.
  assert (String.leb s t = true) as H1 by (unfold String.leb; by rewrite Hst).
  assert (String.leb t u = true) as H2 by (unfold String.leb; by rewrite Htu).
  pose proof (transitivity (R := String.le) (Is_true_true_2 _ H1) (Is_true_true_2 _ H2)) as H3.
  apply Is_true_true_1 in H3. unfold String.leb in H3.
  destruct (String.compare s u) eqn:Hsu; [|done..].
  apply String.compare_eq_iff in Hsu as ->.
  rewrite String.compare_antisym, Hst in Htu. done.
Qed.

Lemma str_lt_trichotomy s t :
  (str_lt s t = true ∧ s ≠ t ∧ str_lt t s = false)
  ∨ (str_lt s t = false ∧ s = t ∧ str_lt t s = false)
  ∨ (str_lt s t = false ∧ s ≠ t ∧ str_lt t s = true).
Proof.
  revert t. induction s as [|a s IH]; intros [|b t]; simpl.
  - by right; left.
  - by left.
  - by right; right.
  - destruct (N.lt_trichotomy (N_of_ascii a) (N_of_ascii b)) as [Hlt|[Heq|Hgt]].
    + left. rewrite (proj2 (N.ltb_lt _ _) Hlt), (proj2 (N.ltb_ge _ _)) by lia.
      rewrite bool_decide_false by (intros ->; lia).
      split; [done|]. split; [|done]. intros [= -> _]. lia.
    + assert (a = b) as -> by by rewrite <-(ascii_N_embedding a), <-(ascii_N_embedding b), Heq.
      rewrite N.ltb_irrefl, bool_decide_true by done.
      destruct (IH t) as [(-> & Hne & ->)|[(-> & -> & ->)|(-> & Hne & ->)]].
      * left. split; [done|]. split; [|done]. by intros [= ->].
      * by right; left.
      * right; right. split; [done|]. split; [|done]. by intros [= ->].
    + right; right.
      rewrite (proj2 (N.ltb_lt _ _) Hgt), (proj2 (N.ltb_ge _ _)) by lia.
      rewrite bool_decide_false by (intros ->; lia).
      split; [done|]. split; [|done]. intros [= -> _]. lia.
Qed.

End MoreStrings.

(** ** Canonical locators and derived names *)

Section Locators.
Context `{OsPath}.

Lemma rstrip_repeat c n : rstrip c (repeat_char n c) = EmptyString.
Proof. induction n as [|n IH]; [done|]. simpl. by rewrite IH, bool_decide_true. Qed.

Lemma rstrip_app_repeat c s n : rstrip c (s +:+ repeat_char n c) = rstrip c s.
Proof.
  induction s as [|a s IH]; [by rewrite app_empty_l, rstrip_repeat|].
  rewrite app_cons. simpl. by rewrite IH.
Qed.

Lemma rstrip_idempotent c s : rstrip c (rstrip c s) = rstrip c s.
Proof.
  destruct (rstrip_decompose c s) as (n & _ & Hend). by apply rstrip_id.
Qed.

Lemma canonical_url_trailing_slashes_irrelevant_aux (locator : string) (n : nat) :
  canonical_url (locator +:+ repeat_char n "/") = canonical_url locator
  ∧ name_from_path (locator +:+ repeat_char n "/") = name_from_path locator.
Proof.
  unfold name_from_path, canonical_url. by rewrite rstrip_app_repeat.
Qed.

(** X1: locators that differ only in trailing slashes have the same
    canonical form and the same derived name, on every file system and for
    paths as well as URLs. *)
Theorem canonical_url_trailing_slashes_irrelevant (locator : string) (n : nat) :
  canonical_url (locator +:+ repeat_char n "/") = canonical_url locator
  ∧ name_from_path (locator +:+ repeat_char n "/") = name_from_path locator.
Proof. apply canonical_url_trailing_slashes_irrelevant_aux. Qed.

(** X2: canonicalization is idempotent on locators that are not file-system
    paths: canonicalizing a canonical URL changes nothing. *)
Theorem canonical_url_idempotent (locator : string) :
  startswith locator "." = false →
  startswith locator "/" = false →
  canonical_url (canonical_url locator) = canonical_url locator.
Proof.
  intros Hdot Hslash.
  rewrite (canonical_url_no_resolution locator Hdot Hslash).
  rewrite canonical_url_no_resolution by by apply startswith_rstrip.
  apply rstrip_idempotent.
Qed.

Lemma is_valid_name_spec (name : string) :
  is_valid_name name = true ↔
  first_is_space name = false ∧ last_is_space name = false
  ∧ contains_char "/" name = false
  ∧ startswith name "." = false
  ∧ name ≠ "package" ∧ name ≠ "packages".
Proof.
  unfold is_valid_name.
  destruct (bool_decide_reflect (name ≠ strip_ws name)) as [Hs|Hs].
  { split; [done|]. intros (Hf & Hl & _). destruct Hs. by apply strip_ws_id. }
  apply dec_stable, strip_ws_id in Hs as [Hf Hl].
  destruct (contains_char "/" name); [split; [done|]; by intros (_ & _ & ? & _)|].
  destruct (startswith name "."); [split; [done|]; by intros (_ & _ & _ & ? & _)|].
  destruct (bool_decide_reflect (name = "package" ∨ name = "packages")) as [Hr|Hr].
  - split; [done|]. intros (_ & _ & _ & _ & ? & ?). by destruct Hr.
  - split; [|done]. intros _. repeat split; try done; intros ->; apply Hr; auto.
Qed.

(** X3: a name is valid exactly when neither its first nor its last
    character is white space, it holds no slash, does not begin with a dot
    and is neither of the reserved words; the empty name and names with
    inner white space pass. *)
Theorem is_valid_name_iff (name : string) :
  is_valid_name name = true ↔
  first_is_space name = false ∧ last_is_space name = false
  ∧ contains_char "/" name = false
  ∧ startswith name "." = false
  ∧ name ≠ "package" ∧ name ≠ "packages".
Proof. apply is_valid_name_spec. Qed.

(** X4: whenever name_from_path returns a name, that name holds no slash,
    whatever the locator and the file system; is_valid_name can thus refuse
    a derived name only for white space at its ends, a leading dot or a
    reserved word. *)
Theorem name_from_path_no_slash (locator n : string) :
  name_from_path locator = Ok n →
  contains_char "/" n = false
  ∧ (is_valid_name n = true ↔
     first_is_space n = false ∧ last_is_space n = false
     ∧ startswith n "." = false ∧ n ≠ "package" ∧ n ≠ "packages").
Proof.
  intros Hn. destruct (name_from_path_last locator) as (n' & Hn' & Hlast).
  rewrite Hn in Hn'. injection Hn' as <-.
  assert (contains_char "/" n = false) as Hslash.
  { apply (split_components "/" (canonical_url locator)).
    apply last_Some in Hlast as [l ->]. apply elem_of_app. right. by left. }
  split; [done|]. rewrite is_valid_name_spec. split.
  - by intros (? & ? & _ & ? & ? & ?).
  - by intros (? & ? & ? & ? & ?).
Qed.

End Locators.

(** The witness of X4: the name derived from a URL. *)
Lemma name_from_path_no_slash_witness :
  contains_char "/" "foo" = false
  ∧ (is_valid_name "foo" = true ↔
     first_is_space "foo" = false ∧ last_is_space "foo" = false
     ∧ startswith "foo" "." = false ∧ "foo" ≠ "package" ∧ "foo" ≠ "packages").
Proof.
  exact (@name_from_path_no_slash Reference.no_files
           "https://example.com/org/foo/" "foo" eq_refl).
Defined.

(** The witness of X2: a URL with trailing slashes. *)
Lemma canonical_url_idempotent_witness :
  @canonical_url Reference.no_files
    (@canonical_url Reference.no_files "https://example.com/org/foo//")
  = @canonical_url Reference.no_files "https://example.com/org/foo//".
Proof.
  apply (@canonical_url_idempotent Reference.no_files
           "https://example.com/org/foo//"); reflexivity.
Defined.

(** ** What a package matches, and when matching raises *)

Section MatchesOwn.

Lemma match_reversed_returns (rp rq : list string) :
  (length rp ≤ length rq)%nat → ∃ b, match_reversed rp rq = Ok b.
Proof.
  intros Hlen. destruct (match_reversed rp rq) as [b|e] eqn:Hm; [eauto|].
  apply match_reversed_raises in Hm as (_ & _ & ?). lia.
Qed.

Lemma split_app_slash s t :
  split "/" (s +:+ "/" +:+ t) = split "/" s ++ split "/" t.
Proof. exact (split_app_sep "/" s t). Qed.

Lemma matches_path_no_source (p : Package.t) (n path : string) :
  Package.source p = EmptyString →
  Package.name p = Some n →
  Package.matches_path p path
  = Ok (bool_decide (length (split "/" path) = 1%nat) && bool_decide (path = n)
        || bool_decide (path = Package.git_url p)).
Proof.
  intros Hsrc Hn. unfold Package.matches_path, Package.get_name.
  rewrite Hsrc, Hn. simpl.
  destruct (bool_decide_reflect (len (split "/" path) = 1)) as [Hlen|Hlen].
  - assert (length (split "/" path) = 1%nat) as Hone by (unfold len in Hlen; lia).
    rewrite (split_single "/" path Hone).
    change [path] with ([] ++ [path]). rewrite getitem_last. simpl.
    by destruct (bool_decide (path = n)).
  - rewrite (bool_decide_false (length (split "/" path) = 1%nat))
      by (unfold len in Hlen; lia).
    done.
Qed.

(** X5: a package matches its own qualified name; in a source it matches
    its name within the source (directory/name); and it matches its bare
    name whenever that name holds no slash. *)
Theorem matches_path_own_names (p : Package.t) (n qn : string) :
  Package.name p = Some n →
  Package.qualified_name p = Ok qn →
  Package.matches_path p qn = Ok true
  ∧ (Package.source p ≠ EmptyString →
     ∃ nwsd, Package.name_with_source_directory p = Ok nwsd
             ∧ Package.matches_path p nwsd = Ok true)
  ∧ (contains_char "/" n = false → Package.matches_path p n = Ok true).
Proof.
  intros Hn Hqn. destruct (decide (Package.source p = EmptyString)) as [Hsrc|Hsrc].
  - assert (qn = Package.git_url p) as ->.
    { unfold Package.qualified_name in Hqn. rewrite Hsrc in Hqn. by simplify_eq/=. }
    rewrite !(matches_path_no_source p n _ Hsrc Hn).
    split; [|split; [done|]].
    + rewrite (bool_decide_true (_ = Package.git_url p)) by done.
      by rewrite orb_true_r.
    + intros Hslash. rewrite (split_no_sep _ _ Hslash). simpl.
      by rewrite !bool_decide_true by done.
  - pose proof (qualified_name_with_source p n Hsrc Hn) as Hqn'.
    rewrite Hqn in Hqn'. injection Hqn' as ->.
    assert (∀ path, split "/" path `suffix_of`
                      split "/" (Package.source p +:+ "/"
                        +:+ (if truthy (Package.directory p)
                             then Package.directory p +:+ "/" +:+ n else n)) →
                    Package.matches_path p path = Ok true) as Hsuf.
    { intros path Hp. rewrite (matches_path_with_source p path _ Hsrc Hqn).
      by rewrite match_reversed_true, <-suffix_prefix_reverse. }
    split; [by apply Hsuf|]. split.
    + intros _. unfold Package.name_with_source_directory, Package.get_name.
      rewrite Hn. destruct (truthy (Package.directory p)); simpl;
        (eexists; split; [done|]); apply Hsuf;
        rewrite (split_app_slash (Package.source p)); by apply suffix_app_r.
    + intros Hslash. apply Hsuf. rewrite (split_app_slash (Package.source p)).
      destruct (truthy (Package.directory p)).
      * rewrite (split_app_slash (Package.directory p)).
        by apply suffix_app_r, suffix_app_r.
      * by apply suffix_app_r.
Qed.

(** X6: matches_path raises nothing but AttributeError and IndexError, and
    exactly in these cases.  AttributeError: the name attribute is unset and
    the package is in a source (on every path), or is in no source and the
    path has a single component.  IndexError: the package is in a source,
    has its name, and the path has more components than the qualified name
    and ends with all of them.  A package with its name and a path with no
    more components than the qualified name never raise. *)
Theorem matches_path_raises_iff (p : Package.t) (path : string) :
  (Package.source p = EmptyString →
   ∀ e, Package.matches_path p path = Raise e ↔
        e = AttributeError ∧ Package.name p = None
        ∧ length (split "/" path) = 1%nat)
  ∧ (Package.source p ≠ EmptyString →
     (Package.name p = None →
      Package.matches_path p path = Raise AttributeError)
     ∧ ∀ n, Package.name p = Some n →
         ∃ qn, Package.qualified_name p = Ok qn
           ∧ ((length (split "/" path) ≤ length (split "/" qn))%nat →
              ∃ b, Package.matches_path p path = Ok b)
           ∧ ∀ e, Package.matches_path p path = Raise e ↔
                  e = IndexError
                  ∧ split "/" qn `suffix_of` split "/" path
                  ∧ (length (split "/" qn) < length (split "/" path))%nat).
Proof.
  split.
  - intros Hsrc e. destruct (Package.name p) as [n|] eqn:Hn.
    + rewrite (matches_path_no_source p n _ Hsrc Hn).
      split; [done|by intros (_ & ? & _)].
    + unfold Package.matches_path, Package.get_name. rewrite Hsrc, Hn. simpl.
      destruct (bool_decide_reflect (len (split "/" path) = 1)) as [Hlen|Hlen].
      * assert (length (split "/" path) = 1%nat) as Hone
          by (unfold len in Hlen; lia).
        rewrite (split_single "/" path Hone).
        change [path] with ([] ++ [path]). rewrite getitem_last. simpl.
        split; [by intros [= <-]|by intros (-> & _)].
      * simpl. split; [done|]. intros (_ & _ & Hone).
        unfold len in Hlen. lia.
  - intros Hsrc. split.
    + intros Hn. unfold Package.matches_path, Package.qualified_name,
        Package.name_with_source_directory, Package.get_name.
      apply truthy_nonempty in Hsrc. rewrite Hsrc, Hn.
      by destruct (truthy (Package.directory p)).
    + intros n Hn. eexists. split; [by apply qualified_name_with_source|].
      rewrite (matches_path_with_source p path _ Hsrc
                 (qualified_name_with_source p n Hsrc Hn)).
      split.
      * intros Hlen. apply match_reversed_returns. by rewrite !length_reverse.
      * intros e.
        by rewrite match_reversed_raises, suffix_prefix_reverse, !length_reverse.
Qed.

(** X7: within one source, and with names that hold no slash, two Packages
    are equal exactly when they have the same directory and the same name;
    git_url and metadata take no part. *)
Theorem package_eq_within_source (p q : Package.t) (n n' : string) :
  Package.source p ≠ EmptyString →
  Package.source q = Package.source p →
  Package.name p = Some n → Package.name q = Some n' →
  contains_char "/" n = false → contains_char "/" n' = false →
  Package.eq p (Package.PackageObject q) = Ok true
  ↔ Package.directory p = Package.directory q ∧ n = n'.
Proof.
  intros Hsrc Hq Hn Hn' Hs Hs'.
  assert (Package.source q ≠ EmptyString) as Hsrcq by by rewrite Hq.
  unfold Package.eq, Package.str_object, Package.str.
  rewrite (qualified_name_with_source p n Hsrc Hn),
    (qualified_name_with_source q n' Hsrcq Hn'), Hq. simpl.
  destruct (bool_decide_reflect
    (Package.source p +:+ "/" +:+
       (if truthy (Package.directory p)
        then Package.directory p +:+ "/" +:+ n else n)
     = Package.source p +:+ "/" +:+
       (if truthy (Package.directory q)
        then Package.directory q +:+ "/" +:+ n' else n'))) as [He|He].
  - split; [intros _|done]. do 2 apply (inj (String.app _)) in He.
    destruct (Package.directory p) as [|c d] eqn:Hd,
             (Package.directory q) as [|c' d'] eqn:Hd'; simpl in He.
    + done.
    + exfalso. rewrite He, !contains_char_app in Hs.
      apply orb_false_elim in Hs as [_ [Hs _]%orb_false_elim]. done.
    + exfalso. rewrite <-He, !contains_char_app in Hs'.
      apply orb_false_elim in Hs' as [_ [Hs' _]%orb_false_elim]. done.
    + by apply app_sep_inj in He as [-> ->].
  - split; [done|]. intros [Hd ->]. destruct He. by rewrite Hd.
Qed.

End MatchesOwn.

(** The witness of X5: src/alice/foo matches src/alice/foo, alice/foo and
    foo. *)
Lemma matches_path_own_names_witness :
  Package.matches_path Sample.alice_foo "src/alice/foo" = Ok true
  ∧ (Package.source Sample.alice_foo ≠ EmptyString →
     ∃ nwsd, Package.name_with_source_directory Sample.alice_foo = Ok nwsd
             ∧ Package.matches_path Sample.alice_foo nwsd = Ok true)
  ∧ (contains_char "/" "foo" = false →
     Package.matches_path Sample.alice_foo "foo" = Ok true).
Proof.
  exact (matches_path_own_names Sample.alice_foo "foo" "src/alice/foo"
           eq_refl eq_refl).
Defined.

(** The witness of X6: a package without a name outside any source, one
    without a name in a source, and src/alice/foo against a path that runs
    past its front. *)
Lemma matches_path_raises_iff_witness :
  Package.matches_path
    {| Package.git_url := "foo"; Package.source := ""; Package.directory := "";
       Package.metadata := ∅; Package.name := None |} "foo"
  = Raise AttributeError
  ∧ Package.matches_path
      {| Package.git_url := "foo"; Package.source := "src";
         Package.directory := ""; Package.metadata := ∅;
         Package.name := None |} "a/b"
    = Raise AttributeError
  ∧ Package.matches_path Sample.alice_foo "zeek/src/alice/foo"
    = Raise IndexError.
Proof.
  split; [|split].
  - apply (proj1 (matches_path_raises_iff
                    {| Package.git_url := "foo"; Package.source := "";
                       Package.directory := ""; Package.metadata := ∅;
                       Package.name := None |} "foo") eq_refl).
    by repeat split.
  - apply (proj2 (matches_path_raises_iff
                    {| Package.git_url := "foo"; Package.source := "src";
                       Package.directory := ""; Package.metadata := ∅;
                       Package.name := None |} "a/b"));
      [discriminate|reflexivity].
  - destruct (proj2 (matches_path_raises_iff Sample.alice_foo
                       "zeek/src/alice/foo")) as [_ Hnamed]; [discriminate|].
    destruct (Hnamed "foo" eq_refl) as (qn & Hqn & _ & Hraise).
    assert (qn = "src/alice/foo") as -> by (vm_compute in Hqn; congruence).
    apply Hraise. split; [done|].
    split; [by exists ["zeek"]|simpl; lia].
Defined.

(** The witness of X7: the package and its mirror. *)
Lemma package_eq_within_source_witness :
  Package.eq Sample.alice_foo (Package.PackageObject Sample.alice_foo_mirror)
  = Ok true
  ↔ Package.directory Sample.alice_foo = Package.directory Sample.alice_foo_mirror
    ∧ "foo" = "foo".
Proof.
  apply (package_eq_within_source Sample.alice_foo Sample.alice_foo_mirror
           "foo" "foo"); [discriminate|reflexivity..].
Defined.

(** ** Order and derived comparisons *)

Section Ordering.

Lemma package_lt_eq (p q : Package.t) (sp sq : string) :
  Package.qualified_name p = Ok sp →
  Package.qualified_name q = Ok sq →
  Package.lt p (Package.PackageObject q) = Ok (str_lt sp sq)
  ∧ Package.eq p (Package.PackageObject q) = Ok (bool_decide (sp = sq)).
Proof.
  intros Hp Hq. unfold Package.lt, Package.eq, Package.str_object, Package.str.
  by rewrite Hp, Hq.
Qed.

(** X8: on Packages that have a qualified name, [<] is a strict total
    order that agrees with [==]: of p < q, p == q and q < p exactly one
    holds, no Package is below itself, and [<] is transitive; sorting a list
    of Packages is therefore well defined. *)
Theorem package_order_strict_total (p q r : Package.t) (sp sq sr : string) :
  Package.qualified_name p = Ok sp →
  Package.qualified_name q = Ok sq →
  Package.qualified_name r = Ok sr →
  ((Package.lt p (Package.PackageObject q) = Ok true
    ∧ Package.eq p (Package.PackageObject q) = Ok false
    ∧ Package.lt q (Package.PackageObject p) = Ok false)
   ∨ (Package.lt p (Package.PackageObject q) = Ok false
      ∧ Package.eq p (Package.PackageObject q) = Ok true
      ∧ Package.lt q (Package.PackageObject p) = Ok false)
   ∨ (Package.lt p (Package.PackageObject q) = Ok false
      ∧ Package.eq p (Package.PackageObject q) = Ok false
      ∧ Package.lt q (Package.PackageObject p) = Ok true))
  ∧ Package.lt p (Package.PackageObject p) = Ok false
  ∧ (Package.lt p (Package.PackageObject q) = Ok true →
     Package.lt q (Package.PackageObject r) = Ok true →
     Package.lt p (Package.PackageObject r) = Ok true).
Proof.
  intros Hp Hq Hr.
  destruct (package_lt_eq p q sp sq Hp Hq) as [-> ->].
  destruct (package_lt_eq q p sq sp Hq Hp) as [-> _].
  destruct (package_lt_eq p p sp sp Hp Hp) as [-> _].
  destruct (package_lt_eq q r sq sr Hq Hr) as [-> _].
  destruct (package_lt_eq p r sp sr Hp Hr) as [-> _].
  split; [|split].
  - destruct (str_lt_trichotomy sp sq) as [(-> & Hne & ->)|[(-> & -> & ->)|(-> & Hne & ->)]].
    + left. by rewrite bool_decide_false.
    + right; left. by rewrite bool_decide_true.
    + right; right. by rewrite bool_decide_false.
  - by rewrite str_lt_irrefl.
  - intros [= H1] [= H2]. by rewrite (str_lt_trans _ _ _ H1 H2).
Qed.

(** X9: the comparisons that total_ordering derives are coherent on
    Packages and on InstalledPackages whose packages have a qualified name:
    a <= b is b >= a, a > b is b < a, and a <= b is the negation of a > b. *)
Theorem derived_comparisons_coherent (a b : InstalledPackage.t) (sa sb : string) :
  Package.qualified_name (InstalledPackage.package a) = Ok sa →
  Package.qualified_name (InstalledPackage.package b) = Ok sb →
  let p := InstalledPackage.package a in
  let q := InstalledPackage.package b in
  Package_le p (Package.PackageObject q) = Package_ge q (Package.PackageObject p)
  ∧ Package_gt p (Package.PackageObject q) = Package.lt q (Package.PackageObject p)
  ∧ Package_le p (Package.PackageObject q)
    = negb <$> Package_gt p (Package.PackageObject q)
  ∧ InstalledPackage.le a (InstalledPackage.InstalledPackageObject b)
    = InstalledPackage.ge b (InstalledPackage.InstalledPackageObject a)
  ∧ InstalledPackage.gt a (InstalledPackage.InstalledPackageObject b)
    = InstalledPackage.lt b (InstalledPackage.InstalledPackageObject a)
  ∧ InstalledPackage.le a (InstalledPackage.InstalledPackageObject b)
    = negb <$> InstalledPackage.gt a (InstalledPackage.InstalledPackageObject b).
Proof.
  intros Ha Hb p q. subst p q.
  assert (InstalledPackage.lt a (InstalledPackage.InstalledPackageObject b)
          = Ok (str_lt sa sb)
          ∧ InstalledPackage.eq a (InstalledPackage.InstalledPackageObject b)
            = Ok (bool_decide (sa = sb))
          ∧ InstalledPackage.lt b (InstalledPackage.InstalledPackageObject a)
            = Ok (str_lt sb sa)) as (Hlt & Heq & Hgt).
  { unfold InstalledPackage.lt, InstalledPackage.eq, Package.lt, Package.str,
      Package.str_object. simpl. by rewrite Ha, Hb. }
  unfold Package_le, Package_gt, Package_ge, InstalledPackage.le,
    InstalledPackage.gt, InstalledPackage.ge.
  rewrite Hlt, Heq, Hgt.
  destruct (package_lt_eq _ _ sa sb Ha Hb) as [-> ->].
  destruct (package_lt_eq _ _ sb sa Hb Ha) as [-> _].
  destruct (str_lt_trichotomy sa sb) as [(-> & Hne & ->)|[(-> & -> & ->)|(-> & Hne & ->)]];
    simpl; rewrite ?bool_decide_true, ?bool_decide_false by done; done.
Qed.

End Ordering.

(** The witness of X8: src/alice/foo, src/bar and the package named by its
    URL. *)
Lemma package_order_strict_total_witness :
  Package.lt Sample.alice_foo (Package.PackageObject Sample.alice_foo) = Ok false
  ∧ (Package.lt Sample.alice_foo (Package.PackageObject Sample.top_bar) = Ok true →
     Package.lt Sample.top_bar (Package.PackageObject Sample.direct_foo) = Ok true →
     Package.lt Sample.alice_foo (Package.PackageObject Sample.direct_foo) = Ok true).
Proof.
  exact (proj2 (package_order_strict_total Sample.alice_foo Sample.top_bar
                  Sample.direct_foo "src/alice/foo" "src/bar"
                  "https://example.com/org/foo" eq_refl eq_refl eq_refl)).
Defined.

(** The witness of X9: two installed packages. *)
Lemma derived_comparisons_coherent_witness :
  InstalledPackage.le
    {| InstalledPackage.package := Sample.alice_foo;
       InstalledPackage.status := Sample.loaded_on_main |}
    (InstalledPackage.InstalledPackageObject
       {| InstalledPackage.package := Sample.top_bar;
          InstalledPackage.status := Sample.pinned_release |})
  = InstalledPackage.ge
      {| InstalledPackage.package := Sample.top_bar;
         InstalledPackage.status := Sample.pinned_release |}
      (InstalledPackage.InstalledPackageObject
         {| InstalledPackage.package := Sample.alice_foo;
            InstalledPackage.status := Sample.loaded_on_main |}).
Proof.
  pose proof (derived_comparisons_coherent
                {| InstalledPackage.package := Sample.alice_foo;
                   InstalledPackage.status := Sample.loaded_on_main |}
                {| InstalledPackage.package := Sample.top_bar;
                   InstalledPackage.status := Sample.pinned_release |}
                "src/alice/foo" "src/bar" eq_refl eq_refl)
    as (_ & _ & _ & Hle & _).
  exact Hle.
Defined.

(** ** More on fullfills: branch requests, positive answers, the memo *)

Section FullfillsMore.
Context `{Semver} `{Util}.

Import PackageVersion.

Lemma app_nonempty_r (s t : string) : t ≠ EmptyString → s +:+ t ≠ EmptyString.
Proof. destruct s; [by rewrite app_empty_l|by rewrite app_cons]. Qed.

(** X10: a branch request is never fulfilled and never raises: whatever
    the tracking method and the version, absent ones included, a spec that
    starts with branch= gets a message with false, and the object is left as
    it was. *)
Theorem fullfills_branch_request_refused (pv : PackageVersion.t) (spec : string) :
  startswith spec "branch=" = true →
  (∃ msg, fullfills_result pv spec = Ok (msg, false) ∧ msg ≠ EmptyString)
  ∧ (fullfills pv spec).1 = pv.
Proof.
  intros Hprefix. unfold fullfills_result, fullfills.
  assert (spec ≠ "*") as Hstar by (intros ->; done).
  rewrite bool_decide_false by done. rewrite Hprefix.
  destruct (bool_decide (method pv = Some TRACKING_METHOD_COMMIT));
    [|destruct (bool_decide (method pv = Some TRACKING_METHOD_BRANCH))];
    simpl; (split; [eexists; split; [done|]|done]); by rewrite ?app_cons.
Qed.

(** X11: in every returned pair the flag is true exactly when the message
    is empty; and a true answer is given only to the wildcard, or to a spec
    that parses as a range holding the normalized version. *)
Theorem fullfills_true_iff_empty_message (pv : PackageVersion.t)
    (spec msg : string) (ok : bool) :
  fullfills_result pv spec = Ok (msg, ok) →
  (ok = true ↔ msg = EmptyString)
  ∧ (ok = true →
     spec = "*"
     ∨ (reaches_semver pv spec
        ∧ ∃ range sv, Spec_parse spec = Some range ∧ normalized pv sv
                      ∧ Spec_contains range sv = true)).
Proof.
  destruct (decide (reaches_semver pv spec)) as [Hreach|Hno].
  - rewrite (fullfills_semver_path pv spec Hreach).
    destruct (ensure_req_semver pv).2 as [sv|e] eqn:Hsv; [|done].
    apply ensure_req_semver_normalized in Hsv.
    destruct (Spec_parse spec) as [range|] eqn:Hparse.
    + destruct (Spec_contains range sv) eqn:Hin; intros [= <- <-].
      * split; [done|]. intros _. right. split; [done|]. by exists range, sv.
      * split; [|done]. split; [done|]. intros Hm.
        by apply app_nonempty_r in Hm.
    + intros [= <- <-]. split; [|done]. by split.
  - unfold fullfills_result, fullfills.
    case_bool_decide as Hstar;
      [intros [= <- <-]; split; [done|]; by left|].
    case_bool_decide as Hcommit; [intros [= <- <-]; by split|].
    case_bool_decide as Hbranch; [intros [= <- <-]; by split|].
    destruct (startswith spec "branch=") eqn:Hprefix;
      [intros [= <- <-]; by split|].
    by destruct Hno.
Qed.

Lemma fullfills_congruence (pv pv' : PackageVersion.t) (spec : string) :
  method pv = method pv' → version pv = version pv' →
  (ensure_req_semver pv).2 = (ensure_req_semver pv').2 →
  fullfills_result pv spec = fullfills_result pv' spec.
Proof.
  intros Hm Hv He. unfold fullfills_result, fullfills. rewrite Hm, Hv.
  repeat case_bool_decide; try done.
  destruct (startswith spec "branch="); [done|].
  destruct (ensure_req_semver pv) as [a b], (ensure_req_semver pv') as [a' b'].
  simpl in He. subst b'. destruct b as [req|e]; [|done].
  destruct (Spec_parse spec) as [range|]; [|done].
  by destruct (Spec_contains range req).
Qed.

Lemma fullfills_keeps_answers (pv : PackageVersion.t) (spec : string) :
  method (fullfills pv spec).1 = method pv
  ∧ version (fullfills pv spec).1 = version pv
  ∧ (ensure_req_semver (fullfills pv spec).1).2 = (ensure_req_semver pv).2.
Proof.
  unfold fullfills. repeat case_bool_decide; try done.
  destruct (startswith spec "branch="); [done|].
  assert (method (ensure_req_semver pv).1 = method pv
          ∧ version (ensure_req_semver pv).1 = version pv
          ∧ (ensure_req_semver (ensure_req_semver pv).1).2
            = (ensure_req_semver pv).2) as Hens.
  { unfold ensure_req_semver. destruct (req_semver pv) as [sv|] eqn:Hreq; simpl.
    { by rewrite Hreq. }
    destruct (version pv) as [v|] eqn:Hv; simpl; [|by rewrite Hreq, Hv].
    destruct (truthy v) eqn:Ht; simpl; [|by rewrite Hreq, Hv, Ht].
    destruct (Version_coerce _) eqn:Hc; simpl; [done|].
    by rewrite Hreq, Hv, Ht, Hc. }
  destruct (ensure_req_semver pv) as [pv' [req|e]]; simpl in *; [|done].
  destruct (Spec_parse spec) as [range|]; [|done].
  by destruct (Spec_contains range req).
Qed.

(** X12: the memoized version is transparent: after any run of earlier
    calls on a PackageVersion, fullfills answers every spec as it would on
    the object as first given, and the tracking method and raw version are
    never changed. *)
Theorem fullfills_memo_transparent (pv : PackageVersion.t)
    (specs : list string) (spec : string) :
  fullfills_result (after_calls pv specs) spec = fullfills_result pv spec
  ∧ method (after_calls pv specs) = method pv
  ∧ version (after_calls pv specs) = version pv.
Proof.
  assert (method (after_calls pv specs) = method pv
          ∧ version (after_calls pv specs) = version pv
          ∧ (ensure_req_semver (after_calls pv specs)).2
            = (ensure_req_semver pv).2) as (Hm & Hv & He).
  { unfold after_calls. induction specs as [|s specs IH] using rev_ind; [done|].
    rewrite foldl_snoc. destruct IH as (IHm & IHv & IHe).
    destruct (fullfills_keeps_answers
                (foldl (λ pv0 spec0, (fullfills pv0 spec0).1) pv specs) s)
      as (-> & -> & ->).
    done. }
  split; [by apply fullfills_congruence|done].
Qed.

End FullfillsMore.

(** The witness of X10: a builtin-tracked package without a version. *)
Lemma fullfills_branch_request_refused_witness :
  (∃ msg,
     @PackageVersion.fullfills_result Reference.numeric_semver Reference.strip_v_util
       (PackageVersion.init (Some "builtin") None) "branch=main"
     = Ok (msg, false) ∧ msg ≠ EmptyString)
  ∧ (@PackageVersion.fullfills Reference.numeric_semver Reference.strip_v_util
       (PackageVersion.init (Some "builtin") None) "branch=main").1
    = PackageVersion.init (Some "builtin") None.
Proof.
  apply (@fullfills_branch_request_refused Reference.numeric_semver
           Reference.strip_v_util (PackageVersion.init (Some "builtin") None)
           "branch=main").
  reflexivity.
Defined.

(** The witness of X11: v1.2.3 in a range that holds it. *)
Lemma fullfills_true_iff_empty_message_witness :
  (true = true ↔ EmptyString = EmptyString)
  ∧ (true = true →
     ">=1.0.0" = "*"
     ∨ (@reaches_semver Reference.numeric_semver
          (PackageVersion.init (Some "version") (Some "v1.2.3")) ">=1.0.0"
        ∧ ∃ range sv,
            @Spec_parse Reference.numeric_semver ">=1.0.0" = Some range
            ∧ @normalized Reference.numeric_semver Reference.strip_v_util
                (PackageVersion.init (Some "version") (Some "v1.2.3")) sv
            ∧ @Spec_contains Reference.numeric_semver range sv = true)).
Proof.
  apply (@fullfills_true_iff_empty_message Reference.numeric_semver
           Reference.strip_v_util
           (PackageVersion.init (Some "version") (Some "v1.2.3"))
           ">=1.0.0" EmptyString true).
  reflexivity.
Defined.

(** ** The aliases and tags fields *)

Section AliasesTags.

Lemma re_split_go_nonempty m skip s : re_split_go m skip s ≠ [].
Proof.
  revert skip. induction s as [|a s IH]; intros skip; [done|]. simpl.
  destruct skip as [|k]; [|apply IH].
  destruct (m (String a s)) as [[|k]|]; [|done|];
    by destruct (re_split_go m 0 s).
Qed.

(** Where the matcher matches at every character that satisfies [P], no
    piece holds such a character. *)
Lemma re_split_go_pieces m (P : ascii → bool) s skip :
  (∀ a t, P a = true → ∃ k, m (String a t) = Some (S k)) →
  Forall (λ w, has_char P w = false) (re_split_go m skip s).
Proof.
  intros Hm. revert skip. induction s as [|a s IH]; intros skip.
  - by repeat constructor.
  - simpl. destruct skip as [|k]; [|apply IH].
    destruct (P a) eqn:Ha.
    + destruct (Hm a s Ha) as [k ->]. constructor; [done|apply IH].
    + destruct (m (String a s)) as [[|k]|]; [|by constructor|];
        (specialize (IH 0%nat); destruct (re_split_go m 0 s) as [|w ws];
         [by repeat constructor; simpl; rewrite Ha|];
         apply Forall_cons in IH as [Hw Hws]; constructor; [|done];
         simpl; by rewrite Ha, Hw).
Qed.

Lemma has_char_comma s :
  has_char (λ a, bool_decide (a = ","%char)) s = contains_char "," s.
Proof. induction s as [|a s IH]; [done|]. simpl. by rewrite IH. Qed.

Lemma has_char_orb P Q s :
  has_char (λ a, P a || Q a) s = has_char P s || has_char Q s.
Proof.
  induction s as [|a s IH]; [done|]. simpl. rewrite IH.
  destruct (P a), (Q a), (has_char P s), (has_char Q s); done.
Qed.

Lemma has_char_space s : has_char isspace s = negb (no_space s).
Proof.
  induction s as [|a s IH]; [done|]. simpl. rewrite IH.
  by destruct (isspace a), (no_space s).
Qed.

(** X13: aliases and tags return the empty list exactly when their field
    is absent; a field that is present always gives at least one entry, and
    an empty field gives the one empty entry. *)
Theorem aliases_tags_empty_iff_absent (metadata_dict : gmap string string) :
  (aliases metadata_dict = [] ↔ metadata_dict !! "aliases" = None)
  ∧ (tags metadata_dict = [] ↔ metadata_dict !! "tags" = None)
  ∧ (metadata_dict !! "aliases" = Some EmptyString →
     aliases metadata_dict = [EmptyString])
  ∧ (metadata_dict !! "tags" = Some EmptyString →
     tags metadata_dict = [EmptyString]).
Proof.
  unfold aliases, tags, re_split. repeat split.
  - destruct (metadata_dict !! "aliases"); [|done].
    by intros ?%re_split_go_nonempty.
  - by intros ->.
  - destruct (metadata_dict !! "tags"); [|done].
    by intros ?%re_split_go_nonempty.
  - by intros ->.
  - by intros ->.
  - by intros ->.
Qed.

(** X14: no alias holds a comma or a white-space character, and no tag
    holds a comma. *)
Theorem aliases_tags_pieces (metadata_dict : gmap string string) :
  Forall (λ w, contains_char "," w = false ∧ no_space w = true)
    (aliases metadata_dict)
  ∧ Forall (λ w, contains_char "," w = false) (tags metadata_dict).
Proof.
  unfold aliases, tags, re_split. split.
  - destruct (metadata_dict !! "aliases") as [v|]; [|constructor].
    eapply Forall_impl;
      [apply (re_split_go_pieces match_comma_ws_or_ws
                (λ a, bool_decide (a = ","%char) || isspace a))|].
    + intros a t Ha. simpl. destruct (bool_decide (a = ","%char)); [eauto|].
      simpl in Ha. rewrite Ha. eauto.
    + intros w. simpl. rewrite has_char_orb, has_char_comma, has_char_space.
      intros [-> ->%negb_false_iff]%orb_false_elim. done.
  - destruct (metadata_dict !! "tags") as [v|]; [|constructor].
    eapply Forall_impl;
      [apply (re_split_go_pieces match_comma_ws
                (λ a, bool_decide (a = ","%char)))|].
    + intros a t Ha. simpl. rewrite Ha. eauto.
    + intros w. simpl. by rewrite has_char_comma.
Qed.

(** A piece with no character the pattern can start at is passed whole. *)
Lemma re_split_go_word m (P : ascii → bool) w t :
  (∀ a u, P a = false → m (String a u) = None) →
  has_char P w = false →
  re_split_go m 0 (w +:+ t)
  = match re_split_go m 0 t with
    | x :: xs => (w +:+ x) :: xs
    | [] => [w]
    end.
Proof.
  intros Hm. induction w as [|a w IH]; intros Hw.
  - rewrite app_empty_l. pose proof (re_split_go_nonempty m 0 t).
    by destruct (re_split_go m 0 t).
  - simpl in Hw. apply orb_false_elim in Hw as [Ha Hw].
    rewrite app_cons. simpl. rewrite (Hm a _ Ha), (IH Hw).
    pose proof (re_split_go_nonempty m 0 t).
    by destruct (re_split_go m 0 t).
Qed.

Lemma re_split_go_last m (P : ascii → bool) w :
  (∀ a u, P a = false → m (String a u) = None) →
  has_char P w = false → re_split_go m 0 w = [w].
Proof.
  intros Hm. induction w as [|a w IH]; intros Hw; [done|].
  simpl in Hw. apply orb_false_elim in Hw as [Ha Hw].
  simpl. by rewrite (Hm a _ Ha), (IH Hw).
Qed.

Lemma leading_ws_join sep l :
  Forall (λ w, first_is_space w = false) l →
  first_is_space sep = false →
  leading_ws (join_str sep l) = 0%nat.
Proof.
  intros Hl Hsep. destruct Hl as [|w l Hw Hl]; [done|].
  assert (leading_ws (w +:+ sep +:+ join_str sep l) = 0%nat) as Hgo.
  { destruct w as [|a w]; [|rewrite app_cons; simpl in *; by rewrite Hw].
    rewrite app_empty_l. destruct sep as [|b sep]; [|rewrite app_cons; simpl in *; by rewrite Hsep].
    rewrite app_empty_l. clear Hw. induction Hl as [|w' l Hw' Hl IH]; [done|].
    destruct l as [|w'' l]; simpl.
    - destruct w'; [done|]. simpl in *. by rewrite Hw'.
    - rewrite app_empty_l. destruct w' as [|a w']; [by rewrite app_empty_l|].
      rewrite app_cons. simpl in *. by rewrite Hw'. }
  destruct l; [|done]. simpl. destruct w; [done|]. simpl in *. by rewrite Hw.
Qed.

(** X15: tags reads back a list of tags written with [", "] between them:
    for a non-empty list of tags none of which holds a comma or begins with
    white space, tags of the joined text is that list. *)
Theorem tags_join_roundtrip (metadata_dict : gmap string string) (l : list string) :
  l ≠ [] →
  Forall (λ w, contains_char "," w = false ∧ first_is_space w = false) l →
  metadata_dict !! "tags" = Some (join_str ", " l) →
  tags metadata_dict = l.
Proof.
  intros Hne Hl Hf. unfold tags, re_split. rewrite Hf. clear Hf.
  assert (∀ a u, bool_decide (a = ","%char) = false →
                 match_comma_ws (String a u) = None) as Hm.
  { intros a u Ha. simpl. by rewrite Ha. }
  induction Hl as [|w l [Hw Hfirst] Hl IH]; [done|].
  destruct l as [|w' l].
  - apply (re_split_go_last _ _ _ Hm). by rewrite has_char_comma.
  - change (join_str ", " (w :: w' :: l))
      with (w +:+ ", " +:+ join_str ", " (w' :: l)).
    rewrite (re_split_go_word _ _ _ _ Hm) by by rewrite has_char_comma.
    change (", " +:+ join_str ", " (w' :: l))
      with (String "," (String " " (join_str ", " (w' :: l)))).
    cbn [re_split_go match_comma_ws]. rewrite bool_decide_true by done.
    cbn [leading_ws]. change (isspace " ") with true. cbn iota.
    rewrite (leading_ws_join ", " (w' :: l));
      [|eapply Forall_impl; [exact Hl|by intros ? [_ ?]]|done].
    cbn [re_split_go]. rewrite IH by done. by rewrite app_empty_r.
Qed.

(** X16: aliases reads back a list of aliases written with single spaces or
    with [", "] between them: for a non-empty list of non-empty aliases
    free of commas and white space, aliases of either joined text is that
    list. *)
Theorem aliases_join_roundtrip (metadata_dict : gmap string string)
    (l : list string) (sep : string) :
  l ≠ [] →
  Forall (λ w, w ≠ EmptyString ∧ contains_char "," w = false
               ∧ no_space w = true) l →
  sep = " " ∨ sep = ", " →
  metadata_dict !! "aliases" = Some (join_str sep l) →
  aliases metadata_dict = l.
Proof.
  intros Hne Hl Hsep Hf. unfold aliases, re_split. rewrite Hf. clear Hf.
  set (P := λ a, bool_decide (a = ","%char) || isspace a).
  assert (∀ a u, P a = false → match_comma_ws_or_ws (String a u) = None) as Hm.
  { intros a u [Ha Hs]%orb_false_elim. simpl. by rewrite Ha, Hs. }
  assert (∀ w, contains_char "," w = false → no_space w = true →
               has_char P w = false) as HP.
  { intros w Hc Hs. unfold P.
    by rewrite has_char_orb, has_char_comma, has_char_space, Hc, Hs. }
  assert (Forall (λ w, first_is_space w = false) l) as Hfirst.
  { eapply Forall_impl; [done|]. intros [|a w] (_ & _ & Hs); [done|].
    simpl in *. by destruct (isspace a). }
  induction Hl as [|w l (Hw & Hc & Hs) Hl IH]; [done|].
  apply Forall_cons in Hfirst as [_ Hfirst].
  destruct l as [|w' l].
  - by apply (re_split_go_last _ _ _ Hm), HP.
  - change (join_str sep (w :: w' :: l))
      with (w +:+ sep +:+ join_str sep (w' :: l)).
    rewrite (re_split_go_word _ _ _ _ Hm) by by apply HP.
    assert (leading_ws (join_str sep (w' :: l)) = 0%nat) as Hlead.
    { apply Forall_cons in Hl as [(Hw' & _ & Hs') _].
      destruct w' as [|a w']; [done|]. simpl in Hs'.
      apply andb_true_iff in Hs' as [Ha%negb_true_iff _].
      destruct l; simpl; by rewrite Ha. }
    destruct Hsep as [-> | ->].
    + change (" " +:+ join_str " " (w' :: l))
        with (String " " (join_str " " (w' :: l))).
      cbn [re_split_go match_comma_ws_or_ws].
      rewrite bool_decide_false by done. change (isspace " ") with true.
      cbn iota. rewrite Hlead. rewrite IH by done.
      by rewrite app_empty_r.
    + change (", " +:+ join_str ", " (w' :: l))
        with (String "," (String " " (join_str ", " (w' :: l)))).
      cbn [re_split_go match_comma_ws_or_ws].
      rewrite bool_decide_true by done.
      cbn [leading_ws]. change (isspace " ") with true. cbn iota.
      rewrite Hlead. cbn [re_split_go]. rewrite IH by done.
      by rewrite app_empty_r.
Qed.

End AliasesTags.

(** The witness of X15: three tags, one with a space inside. *)
Lemma tags_join_roundtrip_witness :
  tags {[ "tags" := "zeek plugin, dns, tls" ]} = ["zeek plugin"; "dns"; "tls"].
Proof.
  apply (tags_join_roundtrip {[ "tags" := "zeek plugin, dns, tls" ]}
           ["zeek plugin"; "dns"; "tls"]).
  - discriminate.
  - repeat constructor.
  - apply lookup_singleton_eq.
Defined.

(** The witness of X16: three aliases, written with spaces. *)
Lemma aliases_join_roundtrip_witness :
  aliases {[ "aliases" := "foo foo-ng zeek-foo" ]} = ["foo"; "foo-ng"; "zeek-foo"].
Proof.
  apply (aliases_join_roundtrip {[ "aliases" := "foo foo-ng zeek-foo" ]}
           ["foo"; "foo-ng"; "zeek-foo"] " ").
  - discriminate.
  - repeat constructor; discriminate.
  - by left.
  - apply lookup_singleton_eq.
Defined.

(** ** More on dependencies *)

Section DependenciesMore.

Lemma dependencies_even_pairs (metadata_dict : gmap string string)
    (field depends : string) :
  metadata_dict !! field = Some depends →
  Nat.even (length (split_ws depends)) = true →
  dependencies metadata_dict field
  = Ok (Some (foldl (λ m kv, <[kv.1:=kv.2]> m) ∅
                (zip (every_other (split_ws depends))
                     (every_other_from_1 (split_ws depends))))).
Proof.
  unfold dependencies. intros ->. set (tokens := split_ws depends). intros Heven.
  pose proof (keys_values_balanced tokens) as Hbal.
  rewrite bool_decide_true by by apply Hbal. simpl.
  unfold enumerate. change 0 with (Z.of_nat 0).
  by rewrite dependencies_loop
    by (apply Hbal in Heven; unfold len in Heven; simpl; lia).
Qed.

Lemma stores_dom (l : list (string * string)) :
  dom (foldl (λ m kv, <[kv.1:=kv.2]> m) (∅ : gmap string string) l)
  = list_to_set l.*1.
Proof.
  induction l as [|[k v] l IH] using rev_ind; [simpl; apply dom_empty_L|].
  rewrite foldl_snoc, dom_insert_L, IH, fmap_snoc, list_to_set_snoc_L. simpl.
  apply (comm_L _).
Qed.

Lemma stores_size (l : list (string * string)) :
  (size (foldl (λ m kv, <[kv.1:=kv.2]> m) (∅ : gmap string string) l)
   ≤ length l)%nat.
Proof.
  induction l as [|[k v] l IH] using rev_ind; [simpl; by rewrite map_size_empty|].
  rewrite foldl_snoc, map_size_insert, length_app. simpl.
  destruct (_ !! k); simpl; lia.
Qed.

Lemma stores_distinct (l : list (string * string)) :
  NoDup l.*1 →
  foldl (λ m kv, <[kv.1:=kv.2]> m) (∅ : gmap string string) l = list_to_map l.
Proof.
  induction l as [|[k v] l IH] using rev_ind; [done|].
  rewrite fmap_snoc. intros (Hnd & Hdis & _)%NoDup_app.
  rewrite foldl_snoc, list_to_map_snoc, IH; [done..|].
  intros Hin. apply (Hdis k Hin). by left.
Qed.

(** X17: dependencies never raises, whatever the metadata and the field; it
    returns None exactly when the field is present and holds an odd number
    of tokens. *)
Theorem dependencies_none_iff_odd (metadata_dict : gmap string string)
    (field : string) :
  ∃ r, dependencies metadata_dict field = Ok r
       ∧ (r = None ↔
          ∃ depends, metadata_dict !! field = Some depends
                     ∧ Nat.odd (length (split_ws depends)) = true).
Proof.
  destruct (metadata_dict !! field) as [depends|] eqn:Hf.
  - destruct (Nat.odd (length (split_ws depends))) eqn:Hodd.
    + exists None. split; [by apply (dependencies_odd _ _ depends)|].
      split; [eauto|done].
    + assert (Nat.even (length (split_ws depends)) = true) as Heven
        by by rewrite <-Nat.negb_odd, Hodd.
      eexists. split; [by apply dependencies_even_pairs|].
      split; [done|]. intros (d & [= <-] & Hd). congruence.
  - exists (Some ∅). split; [by apply dependencies_absent|].
    split; [done|]. by intros (d & ? & _).
Qed.

(** X18: when dependencies returns a map, its keys are exactly the
    even-indexed tokens of the field, and it has at most half as many
    entries as the field has tokens. *)
Theorem dependencies_keys (metadata_dict : gmap string string)
    (field depends : string) :
  metadata_dict !! field = Some depends →
  Nat.even (length (split_ws depends)) = true →
  ∃ rval, dependencies metadata_dict field = Ok (Some rval)
          ∧ dom rval = list_to_set (every_other (split_ws depends))
          ∧ (2 * size rval ≤ length (split_ws depends))%nat.
Proof.
  intros Hf Heven. eexists. split; [by apply dependencies_even_pairs|].
  pose proof (proj2 (keys_values_balanced (split_ws depends)) Heven) as Hbal.
  unfold len in Hbal. split.
  - rewrite stores_dom, fst_zip; [done|lia].
  - etrans; [apply Nat.mul_le_mono_l, stores_size|].
    rewrite length_zip. rewrite every_other_length, every_other_from_1_length in *.
    apply Nat.even_spec in Heven as [h Hh]. rewrite Hh in *.
    rewrite Nat.div2_double in *. lia.
Qed.

Lemma split_ws_word_app (w t : string) :
  w ≠ EmptyString → no_space w = true →
  split_ws (w +:+ String " " t) = w :: split_ws t.
Proof.
  induction w as [|a w IH]; [done|]. intros _ Hw. simpl in Hw.
  apply andb_true_iff in Hw as [Ha%negb_true_iff Hw].
  rewrite app_cons. cbn [split_ws]. rewrite Ha. destruct w as [|b w].
  - rewrite app_empty_l. change (isspace " ") with true. done.
  - rewrite app_cons. simpl in Hw.
    apply andb_true_iff in Hw as [Hb%negb_true_iff Hw]. rewrite Hb.
    rewrite <-app_cons, IH; [done..|]. simpl. by rewrite Hb, Hw.
Qed.

Lemma split_ws_word (w : string) :
  w ≠ EmptyString → no_space w = true → split_ws w = [w].
Proof.
  induction w as [|a w IH]; [done|]. intros _ Hw. simpl in Hw.
  apply andb_true_iff in Hw as [Ha%negb_true_iff Hw].
  cbn [split_ws]. rewrite Ha. destruct w as [|b w]; [done|].
  simpl in Hw. pose proof Hw as Hw'.
  apply andb_true_iff in Hw as [Hb%negb_true_iff Hw]. rewrite Hb.
  rewrite IH; [done..|]. simpl. by rewrite Hb, Hw.
Qed.

Lemma split_ws_join (l : list string) :
  Forall (λ w, w ≠ EmptyString ∧ no_space w = true) l →
  split_ws (join " " l) = l.
Proof.
  induction 1 as [|w l [Hw Hs] Hl IH]; [done|].
  destruct l as [|w' l]; [by apply split_ws_word|].
  change (join " " (w :: w' :: l)) with (w +:+ String " " (join " " (w' :: l))).
  by rewrite split_ws_word_app, IH.
Qed.

Lemma every_other_flatten (l : list (string * string)) :
  every_other (flatten_pairs l) = l.*1
  ∧ every_other_from_1 (flatten_pairs l) = l.*2.
Proof.
  unfold every_other_from_1.
  induction l as [|[k v] l [IH1 IH2]]; [done|]. simpl. rewrite IH1. split; [done|].
  f_equal. destruct l as [|[k' v'] l]; [done|]. simpl in *. done.
Qed.

(** X19: dependencies reads back what was written: for pairs with pairwise
    distinct names, all names and specs non-empty and free of white space,
    the field made of the tokens name spec name spec ... with single spaces
    between them gives the map of these pairs. *)
Theorem dependencies_join_roundtrip (metadata_dict : gmap string string)
    (field : string) (l : list (string * string)) :
  NoDup l.*1 →
  Forall (λ w, w ≠ EmptyString ∧ no_space w = true) (flatten_pairs l) →
  metadata_dict !! field = Some (join " " (flatten_pairs l)) →
  dependencies metadata_dict field = Ok (Some (list_to_map l)).
Proof.
  intros Hnd Hl Hf.
  assert (Nat.even (length (flatten_pairs l)) = true) as Heven.
  { clear. induction l as [|[k v] l IH]; [done|]. simpl. done. }
  rewrite (dependencies_even_pairs _ _ _ Hf); rewrite (split_ws_join _ Hl); [|done].
  destruct (every_other_flatten l) as [-> ->].
  rewrite zip_fst_snd. by rewrite stores_distinct.
Qed.

End DependenciesMore.

(** The witness of X18: the field of the specification's example. *)
Lemma dependencies_keys_witness :
  ∃ rval, dependencies {[ "depends" := "zeek >=4.0.0 foo *" ]} "depends"
          = Ok (Some rval)
          ∧ dom rval = list_to_set (every_other (split_ws "zeek >=4.0.0 foo *"))
          ∧ (2 * size rval ≤ length (split_ws "zeek >=4.0.0 foo *"))%nat.
Proof.
  apply (dependencies_keys {[ "depends" := "zeek >=4.0.0 foo *" ]} "depends"
           "zeek >=4.0.0 foo *").
  - apply lookup_singleton_eq.
  - reflexivity.
Defined.

(** The witness of X19: the two pairs of the specification's example. *)
Lemma dependencies_join_roundtrip_witness :
  dependencies {[ "depends" := "zeek >=4.0.0 foo *" ]} "depends"
  = Ok (Some (list_to_map [("zeek", ">=4.0.0"); ("foo", "*")])).
Proof.
  apply (dependencies_join_roundtrip {[ "depends" := "zeek >=4.0.0 foo *" ]}
           "depends" [("zeek", ">=4.0.0"); ("foo", "*")]).
  - apply (bool_decide_unpack _). by vm_compute.
  - repeat constructor; discriminate.
  - apply lookup_singleton_eq.
Defined.

(** ** short_description *)

Section ShortDescription.
Context `{Sentences}.

Lemma lstrip_ws_no_leading_space s : first_is_space (lstrip_ws s) = false.
Proof.
  induction s as [|a s IH]; [done|]. simpl.
  destruct (isspace a) eqn:Ha; [done|]. simpl. done.
Qed.

Lemma short_description_loop_stops (rval : string) (pre post : list string)
    (l : string) :
  Forall (λ x, find_sentence_end (lstrip_ws x) = -1) pre →
  find_sentence_end (lstrip_ws l) ≠ -1 →
  short_description_loop rval (pre ++ l :: post)
  = (foldl (λ acc x, (acc +:+ " ") +:+ lstrip_ws x) rval pre +:+ " ")
    +:+ slice_to (lstrip_ws l) (find_sentence_end (lstrip_ws l) + 1).
Proof.
  intros Hpre Hl. revert rval.
  induction Hpre as [|x pre Hx Hpre IH]; intros rval; simpl.
  - by rewrite bool_decide_false.
  - rewrite bool_decide_true by done. apply IH.
Qed.

Lemma short_description_loop_runs (rval : string) (lines : list string) :
  Forall (λ x, find_sentence_end (lstrip_ws x) = -1) lines →
  short_description_loop rval lines
  = foldl (λ acc x, (acc +:+ " ") +:+ lstrip_ws x) rval lines.
Proof.
  intros Hl. revert rval. induction Hl as [|x lines Hx Hl IH]; intros rval; [done|].
  simpl. rewrite bool_decide_true by done. apply IH.
Qed.

(** X20: short_description is empty when the field is absent, and its
    result never begins with white space. *)
Theorem short_description_no_leading_space (metadata_dict : gmap string string) :
  (metadata_dict !! "description" = None →
   short_description metadata_dict = EmptyString)
  ∧ first_is_space (short_description metadata_dict) = false.
Proof.
  unfold short_description.
  destruct (metadata_dict !! "description"); [|done].
  split; [done|]. apply lstrip_ws_no_leading_space.
Qed.

(** X21: short_description stops at the first line in which a sentence
    ends: the lines before it are left-trimmed and joined with spaces, that
    line is cut after the end of its sentence, and the lines after it have
    no effect on the result. *)
Theorem short_description_first_sentence (metadata_dict : gmap string string)
    (pre post : list string) (l : string) :
  Forall (λ x, contains_char "010" x = false) (pre ++ l :: post) →
  Forall (λ x, find_sentence_end (lstrip_ws x) = -1) pre →
  find_sentence_end (lstrip_ws l) ≠ -1 →
  metadata_dict !! "description" = Some (join "010" (pre ++ l :: post)) →
  short_description metadata_dict
  = lstrip_ws
      ((foldl (λ acc x, (acc +:+ " ") +:+ lstrip_ws x) EmptyString pre +:+ " ")
       +:+ slice_to (lstrip_ws l) (find_sentence_end (lstrip_ws l) + 1)).
Proof.
  intros Hnl Hpre Hl Hf. unfold short_description. rewrite Hf.
  rewrite split_join; [|by destruct pre|done].
  by rewrite short_description_loop_stops.
Qed.

(** X22: when no line holds the end of a sentence, short_description is
    the whole description: every line left-trimmed, the lines joined with
    single spaces. *)
Theorem short_description_whole (metadata_dict : gmap string string)
    (lines : list string) :
  lines ≠ [] →
  Forall (λ x, contains_char "010" x = false) lines →
  Forall (λ x, find_sentence_end (lstrip_ws x) = -1) lines →
  metadata_dict !! "description" = Some (join "010" lines) →
  short_description metadata_dict
  = lstrip_ws (foldl (λ acc x, (acc +:+ " ") +:+ lstrip_ws x) EmptyString lines).
Proof.
  intros Hne Hnl Hl Hf. unfold short_description. rewrite Hf.
  rewrite split_join by done. by rewrite short_description_loop_runs.
Qed.

End ShortDescription.

(** The witness of X21: the description of the specification's example,
    with a third line after it. *)
Lemma short_description_first_sentence_witness :
  @short_description SampleSentences.first_terminator_sentences
    {[ "description" :=
         join "010" ["This is"; "a test. More text."; "A third line."] ]}
  = "This is a test.".
Proof.
  refine (@short_description_first_sentence
            SampleSentences.first_terminator_sentences
            {[ "description" :=
                 join "010" ["This is"; "a test. More text."; "A third line."] ]}
            ["This is"] ["A third line."] "a test. More text." _ _ _ _).
  - repeat constructor.
  - repeat constructor.
  - discriminate.
  - apply lookup_singleton_eq.
Defined.

(** The witness of X22: two lines without a full stop. *)
Lemma short_description_whole_witness :
  @short_description SampleSentences.first_terminator_sentences
    {[ "description" := join "010" ["A plugin"; "   for DNS"] ]}
  = "A plugin for DNS".
Proof.
  refine (@short_description_whole SampleSentences.first_terminator_sentences
            {[ "description" := join "010" ["A plugin"; "   for DNS"] ]}
            ["A plugin"; "   for DNS"] _ _ _ _).
  - discriminate.
  - repeat constructor.
  - repeat constructor.
  - apply lookup_singleton_eq.
Defined.

(** ** Construction, once more *)

Section Construction.
Context `{OsPath} `{Semver} `{Util}.

(** X23: locators that differ only in trailing slashes build the same
    Package, attribute for attribute, when a source is given or when the
    file system answers the existence test alike for both. *)
Theorem init_trailing_slashes (locator source0 directory0 : string)
    (metadata0 : option (gmap string string)) (name0 : option string) (n : nat) :
  source0 ≠ EmptyString
  ∨ path_exists (locator +:+ repeat_char n "/") = path_exists locator →
  Package.init (locator +:+ repeat_char n "/") source0 directory0 metadata0
    name0 false
  = Package.init locator source0 directory0 metadata0 name0 false.
Proof.
  intros Hcase. unfold Package.init. simpl.
  destruct (canonical_url_trailing_slashes_irrelevant_aux locator n) as [-> ->].
  destruct (name_from_path locator) as [nm|e]; [|done]. simpl.
  destruct Hcase as [Hsrc%truthy_nonempty | ->]; [rewrite Hsrc; simpl|];
    destruct (truthy_opt name0); try destruct (negb (truthy source0) && _);
    done.
Qed.

(** X24: the builtin record of a non-empty name: the git_url is the
    reserved scheme followed by the name as given, with no canonicalization;
    the name is kept; the qualified name is zeek-builtin/name; the status is
    loaded, pinned, not outdated and tracked as builtin; the best version is
    the version it was built with; and it fulfills the wildcard. *)
Theorem make_builtin_package_record (name0 current_version0 : string)
    (current_hash0 : option string) :
  name0 ≠ EmptyString →
  ∃ info st,
    make_builtin_package name0 current_version0 current_hash0 = Ok info
    ∧ Package.git_url (PackageInfo.package info) = BUILTIN_SCHEME +:+ name0
    ∧ Package.name (PackageInfo.package info) = Some name0
    ∧ Package.qualified_name (PackageInfo.package info)
      = Ok (BUILTIN_SOURCE +:+ "/" +:+ name0)
    ∧ Package.is_builtin (PackageInfo.package info) = true
    ∧ PackageInfo.status info = Some st
    ∧ st = {| PackageStatus.is_loaded := true;
              PackageStatus.is_pinned := true;
              PackageStatus.is_outdated := false;
              PackageStatus.tracking_method := Some TRACKING_METHOD_BUILTIN;
              PackageStatus.current_version := Some current_version0;
              PackageStatus.current_hash := current_hash0 |}
    ∧ PackageInfo.versions info = [current_version0]
    ∧ PackageInfo.best_version info = Ok current_version0
    ∧ InstalledPackage.fullfills
        {| InstalledPackage.package := PackageInfo.package info;
           InstalledPackage.status := st |} "*" = Ok (EmptyString, true).
Proof.
  intros Hname%truthy_nonempty. unfold make_builtin_package, Package.init.
  simpl. rewrite Hname. simpl. eexists _, _. repeat split.
  unfold Package.is_builtin. simpl. apply startswith_app.
Qed.

End Construction.

(** The witness of X23: a URL in a source, with and without its slashes. *)
Lemma init_trailing_slashes_witness :
  @Package.init Reference.no_files ("https://example.com/org/foo" +:+ repeat_char 2 "/")
    "src" "alice" None None false
  = @Package.init Reference.no_files "https://example.com/org/foo"
      "src" "alice" None None false.
Proof.
  apply (@init_trailing_slashes Reference.no_files "https://example.com/org/foo"
           "src" "alice" None None 2).
  left. discriminate.
Defined.

(** The witness of X24: the builtin package spicy-plugin at version 1.2.3. *)
Lemma make_builtin_package_record_witness :
  ∃ info st,
    @make_builtin_package Reference.no_files "spicy-plugin" "1.2.3" None = Ok info
    ∧ Package.git_url (PackageInfo.package info) = BUILTIN_SCHEME +:+ "spicy-plugin"
    ∧ Package.name (PackageInfo.package info) = Some "spicy-plugin"
    ∧ Package.qualified_name (PackageInfo.package info)
      = Ok (BUILTIN_SOURCE +:+ "/" +:+ "spicy-plugin")
    ∧ Package.is_builtin (PackageInfo.package info) = true
    ∧ PackageInfo.status info = Some st
    ∧ st = {| PackageStatus.is_loaded := true;
              PackageStatus.is_pinned := true;
              PackageStatus.is_outdated := false;
              PackageStatus.tracking_method := Some TRACKING_METHOD_BUILTIN;
              PackageStatus.current_version := Some "1.2.3";
              PackageStatus.current_hash := None |}
    ∧ PackageInfo.versions info = ["1.2.3"]
    ∧ PackageInfo.best_version info = Ok "1.2.3"
    ∧ @InstalledPackage.fullfills Reference.numeric_semver Reference.strip_v_util
        {| InstalledPackage.package := PackageInfo.package info;
           InstalledPackage.status := st |} "*" = Ok (EmptyString, true).
Proof.
  apply (@make_builtin_package_record Reference.no_files Reference.numeric_semver
           Reference.strip_v_util "spicy-plugin" "1.2.3" None).
  discriminate.
Defined.

(** The witness of X13: an empty aliases field and an empty tags field. *)
Lemma aliases_tags_empty_iff_absent_witness :
  aliases {[ "aliases" := EmptyString ]} = [EmptyString]
  ∧ tags {[ "tags" := EmptyString ]} = [EmptyString].
Proof.
  split.
  - exact (proj1 (proj2 (proj2 (aliases_tags_empty_iff_absent
                                  {[ "aliases" := EmptyString ]})))
             (lookup_singleton_eq _ _)).
  - exact (proj2 (proj2 (proj2 (aliases_tags_empty_iff_absent
                                  {[ "tags" := EmptyString ]})))
             (lookup_singleton_eq _ _)).
Defined.

(** The witness of X20: metadata without a description. *)
Lemma short_description_no_leading_space_witness :
  @short_description SampleSentences.first_terminator_sentences ∅ = EmptyString.
Proof.
  exact (proj1 (@short_description_no_leading_space
                  SampleSentences.first_terminator_sentences ∅)
           (lookup_empty _)).
Defined.
